(** * kube-lineage: the relationship-graph resolver of [internal/graph/graph.go]

    A shallow embedding of [ResolveDependents] and of the value types it
    works on, followed by the properties of the resolver.

    Go maps are [gmap]s, Go sets ([map[K]struct{}]) are [gset]s, Go strings
    are byte strings ([string]).  A [*Node] is an index into the list of
    nodes allocated by the index builder, so that two map entries holding
    the same pointer share one node; the pointers of the indices are never
    nil and always valid, and a branch for a failed lookup in the node list
    leaves the state unchanged.  A [for ... range] over a map visits its
    entries in an order the language leaves unspecified: every such loop
    takes its order from a [RangeOrder], and the theorems hold for all of
    them.  The traversal loop [for { ... }] is bounded by a number of
    iterations; the theorems show that it reaches its [break].

    [k8s.io/apimachinery] is not part of the repository: an object is any
    type with the accessors of [unstructuredv1.Unstructured], a selector any
    type with the methods of [labels.Selector].  The per-kind extractors
    ([getPodRelationships] and the like) are a parameter of the resolver.
    The sort helpers ([RelationshipSet.List], [NodeList]) and
    [GetNestedString] take no part in the resolution and are left out. *)

From Stdlib Require Import Ascii String.
From stdpp Require Import gmap strings list fin_maps sets sorting.

Open Scope string_scope.
Open Scope list_scope.
Open Scope nat_scope.

(** ** Identity and addressing *)

(** [types.UID], [ObjectReferenceKey], [ObjectLabelSelectorKey] and
    [Relationship] are all Go string types. *)
Abbreviation types_UID := string.
Abbreviation ObjectReferenceKey := string.
Abbreviation ObjectLabelSelectorKey := string.
Abbreviation Relationship := string.

(** The method set of [labels.Selector] that the resolver uses: [Matches],
    and [String] through the [%s] verb of [Key]. *)
Class LabelsSelector (Sel : Type) := {
  Matches : Sel → gmap string string → bool;
  SelectorString : Sel → string;
}.

Record ObjectLabelSelector (Sel : Type) := mkObjectLabelSelector {
  ols_Group : string;
  ols_Kind : string;
  ols_Namespace : string;
  ols_Selector : Sel;
}.
Arguments mkObjectLabelSelector {Sel} _ _ _ _.
Arguments ols_Group {Sel} _.
Arguments ols_Kind {Sel} _.
Arguments ols_Namespace {Sel} _.
Arguments ols_Selector {Sel} _.

Record ObjectReference := mkObjectReference {
  ref_Group : string;
  ref_Kind : string;
  ref_Namespace : string;
  ref_Name : string;
}.

(** [fmt.Sprintf("%s\\%s\\%s\\%s", a, b, c, d)]: the four arguments joined
    by single backslashes. *)
Definition Sprintf4 (a b c d : string) : string :=
  a +:+ "\" +:+ b +:+ "\" +:+ c +:+ "\" +:+ d.

Definition ObjectLabelSelector_Key `{LabelsSelector Sel}
    (o : ObjectLabelSelector Sel) : ObjectLabelSelectorKey :=
  Sprintf4 (ols_Group o) (ols_Kind o) (ols_Namespace o)
           (SelectorString (ols_Selector o)).

Definition ObjectReference_Key (o : ObjectReference) : ObjectReferenceKey :=
  Sprintf4 (ref_Group o) (ref_Kind o) (ref_Namespace o) (ref_Name o).

(** The separator byte of the two [Key] formats. *)
Definition separator : ascii := "\"%char.

(** A component is separator-free when no byte of it is the separator. *)
Fixpoint separator_free (s : string) : bool :=
  match s with
  | EmptyString => true
  | String c s' => negb (Ascii.eqb c separator) && separator_free s'
  end.

(** ** Relationships *)

Abbreviation RelationshipSet := (gset string).

(** Modelled from the spec: the two relationship labels of the
    owner-reference materializer, constants of the package declared outside
    [graph.go]; the spec names them "OwnerRef" and "ControllerRef". *)
Definition RelationshipOwnerRef : Relationship := "OwnerRef".
Definition RelationshipControllerRef : Relationship := "ControllerRef".

Record RelationshipMap (Sel : Type) := mkRelationshipMap {
  DependenciesByLabelSelector : gmap ObjectLabelSelectorKey RelationshipSet;
  DependenciesByRef : gmap ObjectReferenceKey RelationshipSet;
  DependenciesByUID : gmap types_UID RelationshipSet;
  DependentsByLabelSelector : gmap ObjectLabelSelectorKey RelationshipSet;
  DependentsByRef : gmap ObjectReferenceKey RelationshipSet;
  DependentsByUID : gmap types_UID RelationshipSet;
  ObjectLabelSelectors : gmap ObjectLabelSelectorKey (ObjectLabelSelector Sel);
}.
Arguments mkRelationshipMap {Sel} _ _ _ _ _ _ _.
Arguments DependenciesByLabelSelector {Sel} _.
Arguments DependenciesByRef {Sel} _.
Arguments DependenciesByUID {Sel} _.
Arguments DependentsByLabelSelector {Sel} _.
Arguments DependentsByRef {Sel} _.
Arguments DependentsByUID {Sel} _.
Arguments ObjectLabelSelectors {Sel} _.

Definition newRelationshipMap {Sel} : RelationshipMap Sel :=
  mkRelationshipMap ∅ ∅ ∅ ∅ ∅ ∅ ∅.

(** [if _, ok := m[k]; !ok { m[k] = RelationshipSet{} }; m[k][r] = struct{}{}] *)
Definition addToSet (k : string) (r : Relationship)
    (m : gmap string RelationshipSet) : gmap string RelationshipSet :=
  let m' := match m !! k with
            | Some _ => m
            | None => <[k := ∅]> m
            end in
  alter (λ rs, {[r]} ∪ rs) k m'.

Section RelationshipMap_methods.
Context `{LabelsSelector Sel}.
Implicit Types (m : RelationshipMap Sel) (o : ObjectLabelSelector Sel).

Definition AddDependencyByKey (k : ObjectReferenceKey) (r : Relationship) m :=
  mkRelationshipMap
    (DependenciesByLabelSelector m) (addToSet k r (DependenciesByRef m))
    (DependenciesByUID m) (DependentsByLabelSelector m) (DependentsByRef m)
    (DependentsByUID m) (ObjectLabelSelectors m).

Definition AddDependencyByLabelSelector o (r : Relationship) m :=
  let k := ObjectLabelSelector_Key o in
  mkRelationshipMap
    (addToSet k r (DependenciesByLabelSelector m)) (DependenciesByRef m)
    (DependenciesByUID m) (DependentsByLabelSelector m) (DependentsByRef m)
    (DependentsByUID m) (<[k := o]> (ObjectLabelSelectors m)).

Definition AddDependencyByUID (uid : types_UID) (r : Relationship) m :=
  mkRelationshipMap
    (DependenciesByLabelSelector m) (DependenciesByRef m)
    (addToSet uid r (DependenciesByUID m)) (DependentsByLabelSelector m)
    (DependentsByRef m) (DependentsByUID m) (ObjectLabelSelectors m).

Definition AddDependentByKey (k : ObjectReferenceKey) (r : Relationship) m :=
  mkRelationshipMap
    (DependenciesByLabelSelector m) (DependenciesByRef m)
    (DependenciesByUID m) (DependentsByLabelSelector m)
    (addToSet k r (DependentsByRef m)) (DependentsByUID m)
    (ObjectLabelSelectors m).

Definition AddDependentByLabelSelector o (r : Relationship) m :=
  let k := ObjectLabelSelector_Key o in
  mkRelationshipMap
    (DependenciesByLabelSelector m) (DependenciesByRef m)
    (DependenciesByUID m) (addToSet k r (DependentsByLabelSelector m))
    (DependentsByRef m) (DependentsByUID m)
    (<[k := o]> (ObjectLabelSelectors m)).

Definition AddDependentByUID (uid : types_UID) (r : Relationship) m :=
  mkRelationshipMap
    (DependenciesByLabelSelector m) (DependenciesByRef m)
    (DependenciesByUID m) (DependentsByLabelSelector m) (DependentsByRef m)
    (addToSet uid r (DependentsByUID m)) (ObjectLabelSelectors m).
End RelationshipMap_methods.

(** ** Input objects and nodes *)

(** The fields of [metav1.OwnerReference] that the resolver reads;
    [Controller] is a [*bool], [None] when the flag is absent. *)
Record OwnerReference := mkOwnerReference {
  or_UID : types_UID;
  or_Controller : option bool;
}.

Record GroupVersionKind := mkGroupVersionKind {
  gvk_Group : string;
  gvk_Version : string;
  gvk_Kind : string;
}.

(** The accessors of [unstructuredv1.Unstructured] that the resolver calls.
    The rest of an object's content is seen by the extractors only. *)
Class Unstructured (U : Type) := {
  GetUID : U → types_UID;
  GetName : U → string;
  GetNamespace : U → string;
  GetGroupVersionKind : U → GroupVersionKind;
  GetOwnerReferences : U → list OwnerReference;
  GetLabels : U → gmap string string;
}.

Record Node (U : Type) := mkNode {
  node_Unstructured : U;
  UID : types_UID;
  Group : string;
  Kind : string;
  Namespace : string;
  Name : string;
  OwnerReferences : list OwnerReference;
  Dependents : gmap types_UID RelationshipSet;
}.
Arguments mkNode {U} _ _ _ _ _ _ _ _.
Arguments node_Unstructured {U} _.
Arguments UID {U} _.
Arguments Group {U} _.
Arguments Kind {U} _.
Arguments Namespace {U} _.
Arguments Name {U} _.
Arguments OwnerReferences {U} _.
Arguments Dependents {U} _.

(** The node with another adjacency map; every other field is immutable
    after construction. *)
Definition withDependents {U} (d : gmap types_UID RelationshipSet)
    (n : Node U) : Node U :=
  mkNode (node_Unstructured n) (UID n) (Group n) (Kind n) (Namespace n)
         (Name n) (OwnerReferences n) d.

Definition Node_AddDependent {U} (uid : types_UID) (r : Relationship)
    (n : Node U) : Node U :=
  withDependents (addToSet uid r (Dependents n)) n.

Definition Node_GetObjectReferenceKey {U} (n : Node U) : ObjectReferenceKey :=
  ObjectReference_Key
    {| ref_Group := Group n; ref_Kind := Kind n;
       ref_Name := Name n; ref_Namespace := Namespace n |}.

(** ** Iteration order of [range]

    A [RangeOrder] fixes, for every map and every set, the order in which a
    [for ... range] loop visits it: some permutation of its entries. *)
Record RangeOrder := mkRangeOrder {
  range : ∀ A : Type, gmap string A → list (string * A);
  range_perm : ∀ A (m : gmap string A), range A m ≡ₚ map_to_list m;
  rangeSet : gset string → list string;
  rangeSet_perm : ∀ X : gset string, rangeSet X ≡ₚ elements X;
}.
Arguments range _ {A} _.

Definition canonicalOrder : RangeOrder :=
  mkRangeOrder (λ A m, map_to_list m) (λ A m, reflexivity _)
               elements (λ X, reflexivity _).

Definition reverseOrder : RangeOrder :=
  mkRangeOrder (λ A m, reverse (map_to_list m)) (λ A m, reverse_Permutation _)
               (λ X, reverse (elements X)) (λ X, reverse_Permutation _).

(** ** The extractor dispatch table

    The per-kind extractors are declared outside [graph.go]; the resolver
    takes them as a table.  An extractor returns [inr rmap], or [inl err]
    for a failure with its message. *)
Record Extractors (Sel U : Type) := mkExtractors {
  getPersistentVolumeRelationships : Node U → string + RelationshipMap Sel;
  getPersistentVolumeClaimRelationships : Node U → string + RelationshipMap Sel;
  getPodRelationships : Node U → string + RelationshipMap Sel;
  getServiceRelationships : Node U → string + RelationshipMap Sel;
  getServiceAccountRelationships : Node U → string + RelationshipMap Sel;
  getMutatingWebhookConfigurationRelationships :
    Node U → string + RelationshipMap Sel;
  getValidatingWebhookConfigurationRelationships :
    Node U → string + RelationshipMap Sel;
  getEventRelationships : Node U → string + RelationshipMap Sel;
  getIngressRelationships : Node U → string + RelationshipMap Sel;
  getIngressClassRelationships : Node U → string + RelationshipMap Sel;
  getClusterRoleRelationships : Node U → string + RelationshipMap Sel;
  getClusterRoleBindingRelationships : Node U → string + RelationshipMap Sel;
  getRoleBindingRelationships : Node U → string + RelationshipMap Sel;
}.
Arguments getPersistentVolumeRelationships {Sel U} _ _.
Arguments getPersistentVolumeClaimRelationships {Sel U} _ _.
Arguments getPodRelationships {Sel U} _ _.
Arguments getServiceRelationships {Sel U} _ _.
Arguments getServiceAccountRelationships {Sel U} _ _.
Arguments getMutatingWebhookConfigurationRelationships {Sel U} _ _.
Arguments getValidatingWebhookConfigurationRelationships {Sel U} _ _.
Arguments getEventRelationships {Sel U} _ _.
Arguments getIngressRelationships {Sel U} _ _.
Arguments getIngressClassRelationships {Sel U} _ _.
Arguments getClusterRoleRelationships {Sel U} _ _.
Arguments getClusterRoleBindingRelationships {Sel U} _ _.
Arguments getRoleBindingRelationships {Sel U} _ _.

(** ** The resolver *)

(** The result map: a [*Node] is an index into the node list, [None] is the
    nil pointer. *)
Abbreviation NodeMap := (gmap types_UID (option nat)).

(** The three indices of the build pass. *)
Record GlobalIndex (U : Type) := mkGlobalIndex {
  nodes : list (Node U);
  globalMapByUID : gmap types_UID nat;
  globalMapByKey : gmap ObjectReferenceKey nat;
}.
Arguments mkGlobalIndex {U} _ _ _.
Arguments nodes {U} _.
Arguments globalMapByUID {U} _.
Arguments globalMapByKey {U} _.

(** The state of the traversal loop. *)
Record Traversal := mkTraversal {
  nodeMap : NodeMap;
  uidQueue : list types_UID;
  uidSet : gset types_UID;
}.

Section Resolver.
Context `{LabelsSelector Sel} `{Unstructured U}.
Implicit Types (h : list (Node U)) (o : U) (node : Node U).

(** [n.AddDependent(uid, r)] through the pointer [n]. *)
Definition AddDependent (n : nat) (uid : types_UID) (r : Relationship) h
    : list (Node U) :=
  alter (Node_AddDependent uid r) n h.

(** One iteration of the first loop: the node of [o] is allocated at the
    next free index and entered in the indices. *)
Definition indexObject (g : GlobalIndex U) o : GlobalIndex U :=
  let gvk := GetGroupVersionKind o in
  let node :=
    {| node_Unstructured := o; UID := GetUID o; Name := GetName o;
       Namespace := GetNamespace o; Group := gvk_Group gvk;
       Kind := gvk_Kind gvk; OwnerReferences := GetOwnerReferences o;
       Dependents := ∅ |} in
  let ix := length (nodes g) in
  let uid := UID node in
  let key := Node_GetObjectReferenceKey node in
  let byUID := <[uid := ix]> (globalMapByUID g) in
  let byKey := <[key := ix]> (globalMapByKey g) in
  let byUID :=
    if decide (Group node = "" ∧ Kind node = "Node") then
      let byUID := <[Name node := ix]> byUID in
      match GetLabels o !! "kubernetes.io/hostname" with
      | Some hostname => <[hostname := ix]> byUID
      | None => byUID
      end
    else byUID in
  mkGlobalIndex (nodes g ++ [node]) byUID byKey.

Definition buildIndex (objects : list U) : GlobalIndex U :=
  foldl indexObject (mkGlobalIndex [] ∅ ∅) objects.

Section passes.
Context (ord : RangeOrder) (E : Extractors Sel U).
Context (byUID : gmap types_UID nat) (byKey : gmap ObjectReferenceKey nat).

Definition resolveSelectorToNodes h (o : ObjectLabelSelector Sel)
    : list nat :=
  foldl (λ result '(_, n),
           match h !! n with
           | Some nn =>
               if decide (Group nn = ols_Group o ∧ Kind nn = ols_Kind o
                          ∧ Namespace nn = ols_Namespace o) then
                 if Matches (ols_Selector o)
                            (GetLabels (node_Unstructured nn))
                 then result ++ [n] else result
               else result
           | None => result
           end)
        [] (range ord byUID).

(** [for r := range rset { n.AddDependent(uid, r) }] *)
Definition addDependents (n : nat) (uid : types_UID)
    (rset : RelationshipSet) h : list (Node U) :=
  foldl (λ h r, AddDependent n uid r h) h (rangeSet ord rset).

(** [for r := range rset { node.AddDependent(n.UID, r) }] *)
Definition addDependentsOf (node_p n : nat) (rset : RelationshipSet) h
    : list (Node U) :=
  foldl (λ h r, match h !! n with
                | Some nn => AddDependent node_p (UID nn) r h
                | None => h
                end) h (rangeSet ord rset).

(** The six loops of [updateRelationships], for the node at [node_p]; its
    [UID] never changes and is read once. *)
Definition updateRelationships (node_p : nat) (rmap : RelationshipMap Sel) h
    : list (Node U) :=
  match h !! node_p with
  | None => h
  | Some node =>
    let uid := UID node in
    let h :=
      foldl (λ h '(k, rset),
               match byKey !! k with
               | Some n => addDependents n uid rset h
               | None => h
               end) h (range ord (DependenciesByRef rmap)) in
    let h :=
      foldl (λ h '(k, rset),
               match byKey !! k with
               | Some n => addDependentsOf node_p n rset h
               | None => h
               end) h (range ord (DependentsByRef rmap)) in
    let h :=
      foldl (λ h '(k, rset),
               match ObjectLabelSelectors rmap !! k with
               | Some ols =>
                   foldl (λ h n, addDependents n uid rset h) h
                         (resolveSelectorToNodes h ols)
               | None => h
               end) h (range ord (DependenciesByLabelSelector rmap)) in
    let h :=
      foldl (λ h '(k, rset),
               match ObjectLabelSelectors rmap !! k with
               | Some ols =>
                   foldl (λ h n, addDependentsOf node_p n rset h) h
                         (resolveSelectorToNodes h ols)
               | None => h
               end) h (range ord (DependentsByLabelSelector rmap)) in
    let h :=
      foldl (λ h '(uid', rset),
               match byUID !! uid' with
               | Some n => addDependents n uid rset h
               | None => h
               end) h (range ord (DependenciesByUID rmap)) in
    foldl (λ h '(uid', rset),
             match byUID !! uid' with
             | Some n => addDependentsOf node_p n rset h
             | None => h
             end) h (range ord (DependentsByUID rmap))
  end.

(** The body of the inner owner-reference loop, for the node with
    identifier [uid]. *)
Definition addOwnerReference (uid : types_UID) h (ref : OwnerReference)
    : list (Node U) :=
  match byUID !! or_UID ref with
  | Some n =>
      let h := match or_Controller ref with
               | Some true => AddDependent n uid RelationshipControllerRef h
               | _ => h
               end in
      AddDependent n uid RelationshipOwnerRef h
  | None => h
  end.

(** Populate dependents based on Owner-Dependent relationships. *)
Definition populateOwnerDependents h : list (Node U) :=
  foldl (λ h '(_, p),
           match h !! p with
           | Some node =>
               foldl (addOwnerReference (UID node)) h (OwnerReferences node)
           | None => h
           end) h (range ord byUID).

(** The [switch] on (group, kind): the extractor's result, or [None] in
    the [default] case. *)
Definition dispatch node : option (string + RelationshipMap Sel) :=
  if decide (Group node = "" ∧ Kind node = "PersistentVolume") then
    Some (getPersistentVolumeRelationships E node)
  else if decide (Group node = "" ∧ Kind node = "PersistentVolumeClaim") then
    Some (getPersistentVolumeClaimRelationships E node)
  else if decide (Group node = "" ∧ Kind node = "Pod") then
    Some (getPodRelationships E node)
  else if decide (Group node = "" ∧ Kind node = "Service") then
    Some (getServiceRelationships E node)
  else if decide (Group node = "" ∧ Kind node = "ServiceAccount") then
    Some (getServiceAccountRelationships E node)
  else if decide (Group node = "admissionregistration.k8s.io"
                  ∧ Kind node = "MutatingWebhookConfiguration") then
    Some (getMutatingWebhookConfigurationRelationships E node)
  else if decide (Group node = "admissionregistration.k8s.io"
                  ∧ Kind node = "ValidatingWebhookConfiguration") then
    Some (getValidatingWebhookConfigurationRelationships E node)
  else if decide ((Group node = "events.k8s.io" ∨ Group node = "")
                  ∧ Kind node = "Event") then
    Some (getEventRelationships E node)
  else if decide ((Group node = "networking.k8s.io"
                   ∨ Group node = "extensions")
                  ∧ Kind node = "Ingress") then
    Some (getIngressRelationships E node)
  else if decide (Group node = "networking.k8s.io"
                  ∧ Kind node = "IngressClass") then
    Some (getIngressClassRelationships E node)
  else if decide (Group node = "rbac.authorization.k8s.io"
                  ∧ Kind node = "ClusterRole") then
    Some (getClusterRoleRelationships E node)
  else if decide (Group node = "rbac.authorization.k8s.io"
                  ∧ Kind node = "ClusterRoleBinding") then
    Some (getClusterRoleBindingRelationships E node)
  else if decide (Group node = "rbac.authorization.k8s.io"
                  ∧ Kind node = "RoleBinding") then
    Some (getRoleBindingRelationships E node)
  else None.

(** The second loop over the index: a failed extraction is logged and
    skipped ([continue]), as is a kind without extractor.  The extractor
    sees the node as it is at the time of the call. *)
Definition populateRelationships h : list (Node U) :=
  foldl (λ h '(_, p),
           match h !! p with
           | Some node =>
               match dispatch node with
               | Some (inr rmap) => updateRelationships p rmap h
               | Some (inl err) => h
               | None => h
               end
           | None => h
           end) h (range ord byUID).

(** [nodeMap[uid]] dereferenced: [None] for a missing key or a nil
    pointer. *)
Definition nodeAt h (nm : NodeMap) (uid : types_UID) : option (Node U) :=
  match nm !! uid with
  | Some (Some p) => h !! p
  | _ => None
  end.

(** One iteration of the traversal loop: [inr] on [break]. *)
Definition visit h (t : Traversal) : Traversal + NodeMap :=
  match uidQueue t with
  | [] => inr (nodeMap t)
  | uid :: rest =>
      if decide (uid ∈ uidSet t) then
        inl (mkTraversal (nodeMap t) rest (uidSet t))
      else
        let seen := {[uid]} ∪ uidSet t in
        match nodeAt h (nodeMap t) uid with
        | Some node =>
            let dependents := (range ord (Dependents node)).*1 in
            inl (mkTraversal
                   (foldl (λ nm dUID, <[dUID := byUID !! dUID]> nm)
                          (nodeMap t) dependents)
                   (rest ++ dependents) seen)
        | None => inl (mkTraversal (nodeMap t) (uidQueue t) seen)
        end
  end.

(** The [for { ... }] loop, cut off after [fuel] iterations. *)
Fixpoint traverse (fuel : nat) h (t : Traversal) : option NodeMap :=
  match fuel with
  | O => None
  | S fuel' =>
      match visit h t with
      | inr nm => Some nm
      | inl t' => traverse fuel' h t'
      end
  end.

Definition initialTraversal (rootUID : types_UID) : Traversal :=
  match byUID !! rootUID with
  | Some node => mkTraversal {[rootUID := Some node]} [rootUID] ∅
  | None => mkTraversal ∅ [] ∅
  end.
End passes.

(** The heap of nodes once the owner-reference pass has run. *)
Definition ownerNodes (ord : RangeOrder) (objects : list U)
    : list (Node U) :=
  let g := buildIndex objects in
  populateOwnerDependents ord (globalMapByUID g) (nodes g).

(** The heap of nodes once both relationship passes have run. *)
Definition resolvedNodes (ord : RangeOrder) (E : Extractors Sel U)
    (objects : list U) : list (Node U) :=
  let g := buildIndex objects in
  populateRelationships ord E (globalMapByUID g) (globalMapByKey g)
                        (ownerNodes ord objects).

(** [ResolveDependents]: the returned map together with the nodes its
    pointers refer to; [None] when [fuel] iterations of the traversal
    loop do not reach its [break]. *)
Definition ResolveDependents (ord : RangeOrder) (E : Extractors Sel U)
    (fuel : nat) (objects : list U) (rootUID : types_UID)
    : option (NodeMap * list (Node U)) :=
  let g := buildIndex objects in
  let h := resolvedNodes ord E objects in
  nm ← traverse ord (globalMapByUID g) fuel h
                (initialTraversal (globalMapByUID g) rootUID);
  Some (nm, h).

(** The count logged before returning: [len(nodeMap)-1]. *)
Definition resolvedDependentsCount (nm : NodeMap) : Z :=
  (Z.of_nat (size nm) - 1)%Z.
End Resolver.

(** ** A concrete object type for examples

    A [Manifest] carries exactly what the accessors return, and nothing
    else. *)
Record Manifest := mkManifest {
  m_uid : types_UID;
  m_group : string;
  m_kind : string;
  m_namespace : string;
  m_name : string;
  m_labels : gmap string string;
  m_owners : list OwnerReference;
}.

#[export] Instance Manifest_Unstructured : Unstructured Manifest := {|
  GetUID := m_uid;
  GetName := m_name;
  GetNamespace := m_namespace;
  GetGroupVersionKind := λ m, mkGroupVersionKind (m_group m) "v1" (m_kind m);
  GetOwnerReferences := m_owners;
  GetLabels := m_labels;
|}.

(** An equality-based selector: the labels an object must carry. *)
Definition SetSelector := list (string * string).

#[export] Instance SetSelector_LabelsSelector : LabelsSelector SetSelector := {|
  Matches := λ sel ls, forallb (λ kv, bool_decide (ls !! kv.1 = Some kv.2)) sel;
  SelectorString := λ sel,
    String.concat "," (map (λ kv, kv.1 +:+ "=" +:+ kv.2) sel);
|}.

(** The table in which every extraction fails: only owner references
    contribute edges. *)
Definition noExtractors {U} : Extractors SetSelector U :=
  let fail := λ _ : Node U, inl "no relationships" in
  mkExtractors _ _ fail fail fail fail fail fail fail fail fail fail fail fail fail.

Definition controlledBy (uid : types_UID) : OwnerReference :=
  mkOwnerReference uid (Some true).
Definition ownedBy (uid : types_UID) : OwnerReference :=
  mkOwnerReference uid None.

Definition object (uid group kind name : string)
    (owners : list OwnerReference) : Manifest :=
  mkManifest uid group kind "default" name ∅ owners.

(** The Deployment / ReplicaSet / Pod scenario. *)
Definition scenarioDRP : list Manifest :=
  [ object "D" "apps" "Deployment" "d" [];
    object "R" "apps" "ReplicaSet" "r" [controlledBy "D"];
    object "P" "" "Pod" "p" [controlledBy "R"] ].

(** A host: empty group, kind "Node", cluster-scoped. *)
Definition host (uid name : string) (labels : gmap string string) : Manifest :=
  mkManifest uid "" "Node" "" name labels [].

(** One host and nothing else. *)
Definition hostOnly : list Manifest := [ host "u1" "node-1" ∅ ].

(** One host that carries a hostname label. *)
Definition labelledHost : list Manifest :=
  [ host "u1" "node-1" {[ "kubernetes.io/hostname" := "host-1" ]} ].

(** Host "b" with a pod it owns, followed by host "a" whose hostname
    label is "b". *)
Definition shadowedHost : list Manifest :=
  [ host "u2" "b" ∅;
    object "P" "" "Pod" "p" [ownedBy "u2"];
    host "u1" "a" {[ "kubernetes.io/hostname" := "b" ]} ].

(** Two objects that own each other. *)
Definition cycleAB : list Manifest :=
  [ object "A" "example.io" "Widget" "a" [ownedBy "B"];
    object "B" "example.io" "Widget" "b" [ownedBy "A"] ].

(** The same cycle in an input with a third object, owned by A. *)
Definition cycleWithDependent : list Manifest :=
  cycleAB ++ [ object "C" "example.io" "Widget" "c" [ownedBy "A"] ].

(** Two objects that own each other, the second a host whose name is the
    identifier of the first. *)
Definition cycleShadowed : list Manifest :=
  [ object "node-1" "example.io" "Widget" "b" [ownedBy "u1"];
    mkManifest "u1" "" "Node" "" "node-1" ∅ [ownedBy "node-1"] ].

(** Two objects with the same identifier, the first of which is
    controlled by the third. *)
Definition duplicateIdentifier : list Manifest :=
  [ object "a" "apps" "ReplicaSet" "rs-1" [controlledBy "b"];
    object "a" "apps" "ReplicaSet" "rs-2" [];
    object "b" "apps" "Deployment" "dep" [] ].

(** A pod owned by its host, without controller flag, and scheduled on
    it. *)
Definition mirrorPod : list Manifest :=
  [ host "N" "node-1" ∅;
    mkManifest "P" "" "Pod" "default" "static-web" {[ "node" := "node-1" ]}
               [ownedBy "N"] ].

(** A table with one working extractor: a pod depends on the host named
    by its "node" label, and a service is depended on by the pods its
    "app" label selects. *)
Definition exampleExtractors : Extractors SetSelector Manifest :=
  let fail := λ _ : Node Manifest, inl "no relationships" in
  let pod := λ n : Node Manifest,
    match GetLabels (node_Unstructured n) !! "node" with
    | Some nodeName =>
        inr (AddDependencyByKey
               (ObjectReference_Key (mkObjectReference "" "Node" "" nodeName))
               "PodNode" newRelationshipMap)
    | None => inl "pod is not scheduled"
    end in
  let service := λ n : Node Manifest,
    match GetLabels (node_Unstructured n) !! "app" with
    | Some app =>
        inr (AddDependentByLabelSelector
               (mkObjectLabelSelector "" "Pod" (Namespace n) [("app", app)])
               "Service" newRelationshipMap)
    | None => inl "service has no selector"
    end in
  mkExtractors _ _ fail fail pod service fail fail fail fail fail fail fail
               fail fail.

(** A service, two pods it selects (one of them scheduled on a host), a
    pod it does not select, and the host. *)
Definition webService : Manifest :=
  mkManifest "S" "" "Service" "default" "web" {[ "app" := "web" ]} [].
Definition webPod1 : Manifest :=
  mkManifest "P1" "" "Pod" "default" "web-1"
             {[ "app" := "web"; "node" := "node-1" ]} [].
Definition scenarioService : list Manifest :=
  [ webService; webPod1;
    mkManifest "P2" "" "Pod" "default" "web-2" {[ "app" := "web" ]} [];
    mkManifest "P3" "" "Pod" "default" "db-1" {[ "app" := "db" ]} [];
    host "N" "node-1" ∅ ].

(** The relationship map of the service of [scenarioService]. *)
Definition serviceRelationships : RelationshipMap SetSelector :=
  AddDependentByLabelSelector
    (mkObjectLabelSelector "" "Pod" "default" [("app", "web")])
    "Service" newRelationshipMap.

(** ** Vocabulary of the specification *)

Section Vocabulary.
Context `{LabelsSelector Sel} `{Unstructured U}.
Implicit Types (h sh : list (Node U)).

(** The node the index builder allocates for an object. *)
Definition nodeOf (o : U) : Node U :=
  {| node_Unstructured := o; UID := GetUID o; Name := GetName o;
     Namespace := GetNamespace o;
     Group := gvk_Group (GetGroupVersionKind o);
     Kind := gvk_Kind (GetGroupVersionKind o);
     OwnerReferences := GetOwnerReferences o; Dependents := ∅ |}.

(** The immutable part of a node. *)
Definition static (n : Node U) : Node U := withDependents ∅ n.

(** The label set of the edge from the node at [q] to identifier [d]. *)
Definition labels h (q : nat) (d : types_UID) : RelationshipSet :=
  match h !! q with
  | Some n => default ∅ (Dependents n !! d)
  | None => ∅
  end.

(** No adjacency entry holds an empty label set. *)
Definition noEmptyEntries h : Prop :=
  ∀ q n d rs, h !! q = Some n → Dependents n !! d = Some rs → rs ≠ ∅.

(** The keys under which the index builder enters an object in the
    by-identifier index: its identifier and, for a host (empty group,
    kind "Node"), its name and its hostname label. *)
Definition indexKeys (o : U) : list types_UID :=
  GetUID o ::
    (if decide (gvk_Group (GetGroupVersionKind o) = ""
                ∧ gvk_Kind (GetGroupVersionKind o) = "Node") then
       GetName o ::
         match GetLabels o !! "kubernetes.io/hostname" with
         | Some hostname => [hostname]
         | None => []
         end
     else []).

(** [d] is a dependent of [u]: the node that [u] resolves to has an
    adjacency entry for [d]. *)
Definition dependentOf (byUID : gmap types_UID nat) h (u d : types_UID)
    : Prop :=
  ∃ p n, byUID !! u = Some p ∧ h !! p = Some n ∧ d ∈ dom (Dependents n).

(** The identifiers reachable from [root] along [Dependents] edges,
    [root] included. *)
Definition reachable (byUID : gmap types_UID nat) h
    (root u : types_UID) : Prop :=
  rtc (dependentOf byUID h) root u.

(** The label selector [ols] resolves to the node at [n]. *)
Definition selects (byUID : gmap types_UID nat) sh
    (ols : ObjectLabelSelector Sel) (n : nat) : Prop :=
  ∃ k nn, byUID !! k = Some n ∧ sh !! n = Some nn
    ∧ Group nn = ols_Group ols ∧ Kind nn = ols_Kind ols
    ∧ Namespace nn = ols_Namespace ols
    ∧ Matches (ols_Selector ols) (GetLabels (node_Unstructured nn)) = true.

(** The labelled edges that merging [rmap], declared by the node at [p],
    puts in the graph: label [r] on the edge from the node at [q] to
    identifier [d]. *)
Definition declared (byUID byKey : gmap string nat) sh (p : nat)
    (rmap : RelationshipMap Sel) (q : nat) (d : types_UID)
    (r : Relationship) : Prop :=
  ∃ nd, sh !! p = Some nd ∧
    ((∃ k rset, DependenciesByRef rmap !! k = Some rset ∧ r ∈ rset
        ∧ byKey !! k = Some q ∧ d = UID nd)
     ∨ (∃ k rset n nn, DependentsByRef rmap !! k = Some rset ∧ r ∈ rset
        ∧ byKey !! k = Some n ∧ sh !! n = Some nn ∧ q = p ∧ d = UID nn)
     ∨ (∃ k rset ols, DependenciesByLabelSelector rmap !! k = Some rset
        ∧ r ∈ rset ∧ ObjectLabelSelectors rmap !! k = Some ols
        ∧ selects byUID sh ols q ∧ d = UID nd)
     ∨ (∃ k rset ols n nn, DependentsByLabelSelector rmap !! k = Some rset
        ∧ r ∈ rset ∧ ObjectLabelSelectors rmap !! k = Some ols
        ∧ selects byUID sh ols n ∧ sh !! n = Some nn ∧ q = p ∧ d = UID nn)
     ∨ (∃ k rset, DependenciesByUID rmap !! k = Some rset ∧ r ∈ rset
        ∧ byUID !! k = Some q ∧ d = UID nd)
     ∨ (∃ k rset n nn, DependentsByUID rmap !! k = Some rset ∧ r ∈ rset
        ∧ byUID !! k = Some n ∧ sh !! n = Some nn ∧ q = p ∧ d = UID nn)).

(** The labelled edges of the owner-reference pass. *)
Definition ownerEdge (byUID : gmap types_UID nat) sh (q : nat)
    (d : types_UID) (r : Relationship) : Prop :=
  ∃ k p nd ref, byUID !! k = Some p ∧ sh !! p = Some nd ∧ d = UID nd
    ∧ ref ∈ OwnerReferences nd ∧ byUID !! or_UID ref = Some q
    ∧ (r = RelationshipOwnerRef
       ∨ (r = RelationshipControllerRef ∧ or_Controller ref = Some true)).

(** The labelled edges that the extractors of table [E] declare: those of
    a relationship map returned for an indexed node, whatever its
    adjacency at the time of the call. *)
Definition extractorEdge (E : Extractors Sel U) (byUID byKey : gmap string nat)
    sh (q : nat) (d : types_UID) (r : Relationship) : Prop :=
  ∃ k p nd rmap, byUID !! k = Some p ∧ sh !! p = Some (static nd)
    ∧ dispatch E nd = Some (inr rmap)
    ∧ declared byUID byKey sh p rmap q d r.

(** An extractor table reads the immutable fields of a node only. *)
Definition readsStaticFields (E : Extractors Sel U) : Prop :=
  ∀ nd, dispatch E nd = dispatch E (static nd).
End Vocabulary.


Section HeapTransformers.
Context {U : Type}.

(** [f] keeps the immutable part [sh] of the heap and adds exactly the
    labelled edges [P] to it. *)
Definition adds (sh : list (Node U)) (f : list (Node U) → list (Node U))
    (P : nat → types_UID → Relationship → Prop) : Prop :=
  ∀ h, static <$> h = sh →
    static <$> f h = sh ∧ (noEmptyEntries h → noEmptyEntries (f h))
    ∧ ∀ q d r, r ∈ labels (f h) q d ↔ r ∈ labels h q d ∨ P q d r.
End HeapTransformers.


Section HeapTransformersWithin.
Context {U : Type}.

(** [f] keeps the immutable part [sh] of the heap, removes no label and
    adds labelled edges among [P] only. *)
Definition addsWithin (sh : list (Node U))
    (f : list (Node U) → list (Node U))
    (P : nat → types_UID → Relationship → Prop) : Prop :=
  ∀ h, static <$> h = sh →
    static <$> f h = sh ∧ (noEmptyEntries h → noEmptyEntries (f h))
    ∧ ∀ q d r, (r ∈ labels h q d → r ∈ labels (f h) q d)
               ∧ (r ∈ labels (f h) q d → r ∈ labels h q d ∨ P q d r).
End HeapTransformersWithin.


Section TraversalVocabulary.
Context {U : Type}.

(** Every identifier the traversal can meet: the root and the adjacency
    keys of the heap. *)
Definition universe (root : types_UID) (h : list (Node U))
    : gset types_UID :=
  {[root]} ∪ ⋃ ((λ n, dom (Dependents n)) <$> h).

(** The loop invariant of the traversal from [root]. *)
Record traversalInv (byUID : gmap types_UID nat) (h : list (Node U))
    (root : types_UID) (t : Traversal) : Prop := mkTraversalInv {
  inv_sound : ∀ u v, nodeMap t !! u = Some v →
                v = byUID !! u ∧ reachable byUID h root u;
  inv_queue : ∀ u, u ∈ uidQueue t → u ∈ dom (nodeMap t);
  inv_seen : ∀ u, u ∈ uidSet t → u ∈ dom (nodeMap t);
  inv_closed : ∀ u d, u ∈ uidSet t → dependentOf byUID h u d →
                 d ∈ dom (nodeMap t);
  inv_pending : ∀ u, u ∈ dom (nodeMap t) →
                  u ∈ uidSet t ∨ u ∈ uidQueue t;
  inv_universe : dom (nodeMap t) ⊆ universe root h;
}.
End TraversalVocabulary.


Section CallVocabulary.
Context `{LabelsSelector Sel} `{Unstructured U}.

(** The call [ResolveDependents(objects, rootUID)] returns the map [nm],
    whose pointers refer to [resolvedNodes]: the traversal loop reaches
    its [break], so that every larger bound on its iterations gives the
    same result. *)
Definition Resolves (ord : RangeOrder) (E : Extractors Sel U)
    (objects : list U) (rootUID : types_UID) (nm : NodeMap) : Prop :=
  ∃ fuel, ∀ fuel', fuel ≤ fuel' →
    ResolveDependents ord E fuel' objects rootUID
    = Some (nm, resolvedNodes ord E objects).

(** The object is a cluster host: empty group, kind "Node". *)
Definition isHost (o : U) : Prop :=
  gvk_Group (GetGroupVersionKind o) = ""
  ∧ gvk_Kind (GetGroupVersionKind o) = "Node".
End CallVocabulary.


(** * The rest of the package: sorting, relationship maps, vocabulary *)

(** ** Slices and sorting *)

(** [len(s)] of a slice. *)
Definition slice_Len {A} (s : list A) : nat := length s.

(** [s[i], s[j] = s[j], s[i]]: [None] is the panic of an index out of
    range. *)
Definition slice_Swap {A} (s : list A) (i j : nat) : option (list A) :=
  a ← s !! i; b ← s !! j; Some (<[j := a]> (<[i := b]> s)).

(** [sortableStringSlice.Less]: [s[i] < s[j]] on Go strings, the
    lexicographic order on bytes. *)
Definition sortableStringSlice_Less (s : list string) (i j : nat)
    : option bool :=
  a ← s !! i; b ← s !! j; Some (String.ltb a b).

(** An implementation of the library's [sort.Sort] for the element order
    [less]: it permutes the slice so that no element is less than one
    before it. *)
Record Sorter (A : Type) (less : A → A → bool) := mkSorter {
  sort_Sort : list A → list A;
  sort_Sort_perm : ∀ l, sort_Sort l ≡ₚ l;
  sort_Sort_sorted : ∀ l, Sorted (λ x y, less y x = false) (sort_Sort l);
}.
Arguments sort_Sort {A less} _ _.

(** [RelationshipSet.List]: the keys are appended in [range] order, then
    sorted. *)
Definition RelationshipSet_List (ord : RangeOrder)
    (sorter : Sorter string String.ltb) (s : RelationshipSet) : list string :=
  let res := foldl (λ res key, res ++ [key]) [] (rangeSet ord s) in
  sort_Sort sorter res.

(** [NodeList.Less] on two nodes: namespace, then kind, then group, then
    name. *)
Definition Node_Less {U} (a b : Node U) : bool :=
  if decide (Namespace a ≠ Namespace b) then
    String.ltb (Namespace a) (Namespace b)
  else if decide (Kind a ≠ Kind b) then String.ltb (Kind a) (Kind b)
  else if decide (Group a ≠ Group b) then String.ltb (Group a) (Group b)
  else String.ltb (Name a) (Name b).

(** [NodeList.Less(i, j)]; the elements of a [NodeList] are non-nil
    pointers, the list holds the nodes they point to. *)
Definition NodeList_Less {U} (n : list (Node U)) (i j : nat) : option bool :=
  a ← n !! i; b ← n !! j; Some (Node_Less a b).

(** ** Relationship maps built by extractors *)

(** A relationship map is well formed when no label set in it is empty
    and every selector key that carries labels has its selector
    registered. *)
Definition wellFormed {Sel} (m : RelationshipMap Sel) : Prop :=
  (∀ t, t ∈ [DependenciesByLabelSelector m; DependenciesByRef m;
             DependenciesByUID m; DependentsByLabelSelector m;
             DependentsByRef m; DependentsByUID m] →
        ∀ k rs, t !! k = Some rs → rs ≠ ∅)
  ∧ (∀ k, k ∈ dom (DependenciesByLabelSelector m)
          ∨ k ∈ dom (DependentsByLabelSelector m) →
          k ∈ dom (ObjectLabelSelectors m)).

(** The relationship maps an extractor can build: the empty map followed
    by calls of the six add methods. *)
Inductive built `{LabelsSelector Sel} : RelationshipMap Sel → Prop :=
  | built_new : built newRelationshipMap
  | built_DependencyByKey k r m :
      built m → built (AddDependencyByKey k r m)
  | built_DependencyByLabelSelector o r m :
      built m → built (AddDependencyByLabelSelector o r m)
  | built_DependencyByUID uid r m :
      built m → built (AddDependencyByUID uid r m)
  | built_DependentByKey k r m :
      built m → built (AddDependentByKey k r m)
  | built_DependentByLabelSelector o r m :
      built m → built (AddDependentByLabelSelector o r m)
  | built_DependentByUID uid r m :
      built m → built (AddDependentByUID uid r m).

(** ** Vocabulary of the index and of the extractor switch *)

#[export] Instance isHost_dec `{Unstructured U} (o : U) : Decision (isHost o) :=
  ltac:(unfold isHost; apply _).

(** The coordinates of an object: group, kind, namespace and name. *)
Definition coordinates `{Unstructured U} (o : U)
    : string * string * string * string :=
  (gvk_Group (GetGroupVersionKind o), gvk_Kind (GetGroupVersionKind o),
   GetNamespace o, GetName o).

(** The reference key under which the index builder enters an object. *)
Definition referenceKey `{Unstructured U} (o : U) : ObjectReferenceKey :=
  Node_GetObjectReferenceKey (nodeOf o).

(** The (group, kind) pairs of the [case] labels of the extractor
    [switch]. *)
Definition extractorKinds : list (string * string) :=
  [ ("", "PersistentVolume"); ("", "PersistentVolumeClaim"); ("", "Pod");
    ("", "Service"); ("", "ServiceAccount");
    ("admissionregistration.k8s.io", "MutatingWebhookConfiguration");
    ("admissionregistration.k8s.io", "ValidatingWebhookConfiguration");
    ("events.k8s.io", "Event"); ("", "Event");
    ("networking.k8s.io", "Ingress"); ("extensions", "Ingress");
    ("networking.k8s.io", "IngressClass");
    ("rbac.authorization.k8s.io", "ClusterRole");
    ("rbac.authorization.k8s.io", "ClusterRoleBinding");
    ("rbac.authorization.k8s.io", "RoleBinding") ].

(** The test of the selector loop on one node. *)
Definition selected `{LabelsSelector Sel} `{Unstructured U}
    (o : ObjectLabelSelector Sel) (nn : Node U) : bool :=
  bool_decide (Group nn = ols_Group o ∧ Kind nn = ols_Kind o
               ∧ Namespace nn = ols_Namespace o)
  && Matches (ols_Selector o) (GetLabels (node_Unstructured nn)).

(** * Properties *)

(** ** Keys *)

Lemma append_String (c : ascii) (s t : string) :
  String c s +:+ t = String c (s +:+ t).
Proof. reflexivity. Qed.

(** Two joined strings with separator-free heads split at the same place. *)
Lemma join_inj (a a' x y : string) :
  separator_free a = true → separator_free a' = true →
  a +:+ String separator x = a' +:+ String separator y → a = a' ∧ x = y.
Proof.
  revert a'. induction a as [|c a IH]; intros [|c' a'] Ha Ha' Heq; simpl in *.
  - by injection Heq as ->.
  - injection Heq as <- _. apply andb_prop in Ha' as [Hc _].
    by rewrite Ascii.eqb_refl in Hc.
  - injection Heq as -> _. apply andb_prop in Ha as [Hc _].
    by rewrite Ascii.eqb_refl in Hc.
  - injection Heq as -> Heq.
    apply andb_prop in Ha as [_ Ha]. apply andb_prop in Ha' as [_ Ha'].
    destruct (IH _ Ha Ha' Heq) as [-> ->]. done.
Qed.

Lemma Sprintf4_inj (a b c d a' b' c' d' : string) :
  separator_free a = true → separator_free b = true →
  separator_free c = true → separator_free a' = true →
  separator_free b' = true → separator_free c' = true →
  Sprintf4 a b c d = Sprintf4 a' b' c' d' →
  a = a' ∧ b = b' ∧ c = c' ∧ d = d'.
Proof.
  unfold Sprintf4. intros Ha Hb Hc Ha' Hb' Hc' Heq.
  apply join_inj in Heq as [-> Heq]; [|done..].
  apply join_inj in Heq as [-> Heq]; [|done..].
  apply join_inj in Heq as [-> Heq]; [|done..].
  done.
Qed.

(** C5, as stated, fails: a separator inside a component moves the
    boundary between two components, so two references that differ in
    group and kind have the same key. *)
Lemma ObjectReference_Key_collision :
  ObjectReference_Key (mkObjectReference "a\b" "c" "ns" "x")
  = ObjectReference_Key (mkObjectReference "a" "b\c" "ns" "x")
  ∧ mkObjectReference "a\b" "c" "ns" "x" ≠ mkObjectReference "a" "b\c" "ns" "x".
Proof. split; [reflexivity | discriminate]. Qed.

(** C5, amended: when group, kind and namespace contain no separator, two
    references have equal keys exactly when they are equal component-wise,
    and two label selectors have equal keys exactly when group, kind,
    namespace and the stringified selector are equal.  Both [Key]
    functions are total functions of these components. *)
Theorem Key_injective_separator_free `{LabelsSelector Sel}
    (r1 r2 : ObjectReference) (s1 s2 : ObjectLabelSelector Sel) :
  separator_free (ref_Group r1) = true → separator_free (ref_Kind r1) = true →
  separator_free (ref_Namespace r1) = true →
  separator_free (ref_Group r2) = true → separator_free (ref_Kind r2) = true →
  separator_free (ref_Namespace r2) = true →
  separator_free (ols_Group s1) = true → separator_free (ols_Kind s1) = true →
  separator_free (ols_Namespace s1) = true →
  separator_free (ols_Group s2) = true → separator_free (ols_Kind s2) = true →
  separator_free (ols_Namespace s2) = true →
  (ObjectReference_Key r1 = ObjectReference_Key r2 ↔ r1 = r2)
  ∧ (ObjectLabelSelector_Key s1 = ObjectLabelSelector_Key s2
     ↔ ols_Group s1 = ols_Group s2 ∧ ols_Kind s1 = ols_Kind s2
       ∧ ols_Namespace s1 = ols_Namespace s2
       ∧ SelectorString (ols_Selector s1) = SelectorString (ols_Selector s2)).
Proof.
  intros ? ? ? ? ? ? ? ? ? ? ? ?. split; split.
  - intros Heq. destruct r1, r2. unfold ObjectReference_Key in Heq.
    simpl in *. apply Sprintf4_inj in Heq as (-> & -> & -> & ->); done.
  - by intros ->.
  - intros Heq. by apply Sprintf4_inj in Heq.
  - intros (Hg & Hk & Hn & Hs). unfold ObjectLabelSelector_Key.
    by rewrite Hg, Hk, Hn, Hs.
Qed.

Lemma Key_injective_separator_free_witness :
  (ObjectReference_Key (mkObjectReference "apps" "Deployment" "default" "a\b")
   = ObjectReference_Key (mkObjectReference "apps" "Deployment" "default" "a\b")
   ↔ mkObjectReference "apps" "Deployment" "default" "a\b"
     = mkObjectReference "apps" "Deployment" "default" "a\b")
  ∧ (ObjectLabelSelector_Key
       (mkObjectLabelSelector "" "Pod" "default" [("app", "web")])
     = ObjectLabelSelector_Key
         (mkObjectLabelSelector "" "Pod" "default" [("app", "web")])
     ↔ "" = "" ∧ "Pod" = "Pod" ∧ "default" = "default"
       ∧ SelectorString [("app", "web")] = SelectorString [("app", "web")]).
Proof.
  apply (Key_injective_separator_free
           (mkObjectReference "apps" "Deployment" "default" "a\b")
           (mkObjectReference "apps" "Deployment" "default" "a\b")
           (mkObjectLabelSelector "" "Pod" "default" [("app", "web")])
           (mkObjectLabelSelector "" "Pod" "default" [("app", "web")]));
    reflexivity.
Defined.

Lemma foldl_ext_in {A B} (f g : A → B → A) (l : list B) (a : A) :
  (∀ a x, x ∈ l → f a x = g a x) → foldl f a l = foldl g a l.
Proof.
  revert a. induction l as [|x l IH]; intros a Hfg; [done|].
  simpl. rewrite Hfg by set_solver. apply IH. intros; apply Hfg; set_solver.
Qed.

(** ** Heaps of nodes and their label sets *)

Section Heap.
Context {U : Type}.
Implicit Types (h sh : list (Node U)) (n : Node U).

Lemma static_withDependents d n : static (withDependents d n) = static n.
Proof. reflexivity. Qed.

Lemma static_Node_AddDependent uid r n :
  static (Node_AddDependent uid r n) = static n.
Proof. reflexivity. Qed.

Lemma UID_static n : UID (static n) = UID n.
Proof. reflexivity. Qed.

Lemma static_lookup h sh p n :
  static <$> h = sh → h !! p = Some n → sh !! p = Some (static n).
Proof. intros <- Hp. by rewrite list_lookup_fmap, Hp. Qed.

Lemma static_lookup_inv h sh p m :
  static <$> h = sh → sh !! p = Some m →
  ∃ n, h !! p = Some n ∧ static n = m.
Proof.
  intros <- Hp. rewrite list_lookup_fmap in Hp.
  destruct (h !! p) as [n|]; [|done]. exists n. by injection Hp.
Qed.

Lemma static_length h sh : static <$> h = sh → length h = length sh.
Proof. intros <-. by rewrite length_fmap. Qed.

Lemma lookup_addToSet (k k' : string) (r : Relationship)
    (m : gmap string RelationshipSet) :
  addToSet k r m !! k'
  = if decide (k = k') then Some ({[r]} ∪ default ∅ (m !! k)) else m !! k'.
Proof.
  unfold addToSet. rewrite lookup_alter. case_decide as Hk; subst.
  - destruct (m !! k') as [rs|] eqn:Hm; simpl.
    + by rewrite Hm.
    + by rewrite lookup_insert_eq.
  - destruct (m !! k) eqn:Hm; [done|]. by rewrite lookup_insert_ne.
Qed.

Lemma static_AddDependent p uid r h :
  static <$> AddDependent p uid r h = static <$> h.
Proof.
  unfold AddDependent. rewrite (list_fmap_alter static _ id).
  - apply list_alter_id. done.
  - apply Forall_forall. intros n _. apply static_Node_AddDependent.
Qed.

Lemma labels_AddDependent p uid r h q d :
  p < length h →
  labels (AddDependent p uid r h) q d
  = if decide (q = p ∧ d = uid) then {[r]} ∪ labels h q d else labels h q d.
Proof.
  intros Hp. unfold labels, AddDependent. rewrite list_lookup_alter.
  destruct (lookup_lt_is_Some_2 h p Hp) as [n Hn].
  destruct (decide (p = q)) as [<-|Hne].
  - rewrite Hn. simpl. rewrite lookup_addToSet.
    repeat case_decide; naive_solver.
  - case_decide; [naive_solver|done].
Qed.

Lemma noEmptyEntries_AddDependent p uid r h :
  noEmptyEntries h → noEmptyEntries (AddDependent p uid r h).
Proof.
  intros Hne q n d rs. unfold AddDependent. rewrite list_lookup_alter.
  case_decide as Hq; [subst q|by apply Hne].
  destruct (h !! p) as [n0|] eqn:Hn0; [|done]. simpl.
  intros [= <-]. simpl. rewrite lookup_addToSet.
  case_decide; [|by eapply Hne]. intros [= <-]. set_solver.
Qed.

Lemma dom_Dependents_labels h q n d :
  noEmptyEntries h → h !! q = Some n →
  d ∈ dom (Dependents n) ↔ ∃ r, r ∈ labels h q d.
Proof.
  intros Hne Hq. unfold labels. rewrite Hq, elem_of_dom. split.
  - intros [rs Hrs]. rewrite Hrs. simpl.
    apply set_choose_L. by eapply Hne.
  - intros [r Hr]. destruct (Dependents n !! d); [done|set_solver].
Qed.

(** Two heaps with the same immutable part and the same label sets are
    equal. *)
Lemma heap_eq h h' :
  static <$> h = static <$> h' → noEmptyEntries h → noEmptyEntries h' →
  (∀ q d, labels h q d = labels h' q d) → h = h'.
Proof.
  intros Hst Hne Hne' Hlab. apply list_eq. intros q.
  pose proof (f_equal (λ l, l !! q) Hst) as Hq. simpl in Hq.
  rewrite !list_lookup_fmap in Hq.
  destruct (h !! q) as [n|] eqn:Hn, (h' !! q) as [n'|] eqn:Hn'; try done.
  f_equal. simpl in Hq. injection Hq as Hq.
  assert (Dependents n = Dependents n') as Hdep.
  { apply map_eq. intros d. specialize (Hlab q d). unfold labels in Hlab.
    rewrite Hn, Hn' in Hlab.
    destruct (Dependents n !! d) as [rs|] eqn:Hd,
             (Dependents n' !! d) as [rs'|] eqn:Hd'; simpl in Hlab.
    - by subst.
    - exfalso. by eapply Hne.
    - exfalso. by eapply Hne'.
    - done. }
  destruct n, n'. unfold static, withDependents in Hq. simpl in *.
  by simplify_eq.
Qed.

(** *** Composing heap transformers *)

Lemma adds_skip sh : adds sh (λ h, h) (λ _ _ _, False).
Proof. intros h Hsh. split_and!; [done..|]. naive_solver. Qed.

Lemma adds_AddDependent sh p uid r :
  p < length sh →
  adds sh (AddDependent p uid r) (λ q d r', q = p ∧ d = uid ∧ r' = r).
Proof.
  intros Hp h Hsh. split_and!.
  - by rewrite static_AddDependent.
  - apply noEmptyEntries_AddDependent.
  - intros q d r'. rewrite labels_AddDependent
      by (by rewrite (static_length h sh)).
    case_decide; set_solver.
Qed.

Lemma adds_iff sh f P P' :
  (∀ q d r, P q d r ↔ P' q d r) → adds sh f P → adds sh f P'.
Proof.
  intros HP Hf h Hsh. destruct (Hf h Hsh) as (? & ? & Hl).
  split_and!; [done..|]. intros q d r. rewrite Hl. by rewrite HP.
Qed.

Lemma adds_ext sh f g P :
  (∀ h, static <$> h = sh → g h = f h) → adds sh f P → adds sh g P.
Proof. intros Hfg Hf h Hsh. rewrite Hfg by done. by apply Hf. Qed.

Lemma adds_compose sh f g P Q :
  adds sh f P → adds sh g Q →
  adds sh (λ h, g (f h)) (λ q d r, P q d r ∨ Q q d r).
Proof.
  intros Hf Hg h Hsh. destruct (Hf h Hsh) as (Hsh1 & Hne1 & Hl1).
  destruct (Hg (f h) Hsh1) as (Hsh2 & Hne2 & Hl2).
  split_and!; [done|auto|]. intros q d r. rewrite Hl2, Hl1. tauto.
Qed.

Lemma adds_foldl {X} sh (step : list (Node U) → X → list (Node U))
    (l : list X) (P : X → nat → types_UID → Relationship → Prop) :
  (∀ x, x ∈ l → adds sh (λ h, step h x) (P x)) →
  adds sh (λ h, foldl step h l) (λ q d r, ∃ x, x ∈ l ∧ P x q d r).
Proof.
  induction l as [|x l IH] using rev_ind; intros Hstep.
  - simpl. eapply adds_iff; [|apply adds_skip].
    intros q d r. split; [done|]. intros (x & Hx & _). by inversion Hx.
  - assert (adds sh (λ h, foldl step h l)
              (λ q d r, ∃ y, y ∈ l ∧ P y q d r)) as H1.
    { apply IH. intros y Hy. apply Hstep. set_solver. }
    assert (adds sh (λ h, step h x) (P x)) as H2.
    { apply Hstep. set_solver. }
    pose proof (adds_compose _ _ _ _ _ H1 H2) as H3.
    eapply adds_ext; [intros h _; apply foldl_app|]. simpl.
    eapply adds_iff; [|exact H3]. intros q d r.
    setoid_rewrite elem_of_app. setoid_rewrite list_elem_of_singleton.
    naive_solver.
Qed.
End Heap.

(** ** The index builder *)

Section Index.
Context `{Unstructured U}.
Implicit Types (objects : list U) (o : U) (k : types_UID) (i j : nat).

Lemma buildIndex_snoc objects o :
  buildIndex (objects ++ [o]) = indexObject (buildIndex objects) o.
Proof. unfold buildIndex. by rewrite foldl_app. Qed.

Lemma nodes_buildIndex objects : nodes (buildIndex objects) = nodeOf <$> objects.
Proof.
  induction objects as [|o objects IH] using rev_ind; [done|].
  rewrite buildIndex_snoc, fmap_app. simpl. by rewrite IH.
Qed.

Lemma length_nodes_buildIndex objects :
  length (nodes (buildIndex objects)) = length objects.
Proof. by rewrite nodes_buildIndex, length_fmap. Qed.

Lemma GetUID_indexKeys o : GetUID o ∈ indexKeys o.
Proof. unfold indexKeys. set_solver. Qed.

Lemma globalMapByUID_indexObject (g : GlobalIndex U) o k :
  globalMapByUID (indexObject g o) !! k
  = if decide (k ∈ indexKeys o) then Some (length (nodes g))
    else globalMapByUID g !! k.
Proof.
  unfold indexObject, indexKeys. simpl.
  destruct (decide (gvk_Group (GetGroupVersionKind o) = ""
                    ∧ gvk_Kind (GetGroupVersionKind o) = "Node")) as [Hh|Hh].
  - destruct (GetLabels o !! "kubernetes.io/hostname") as [hn|];
      rewrite ?lookup_insert; repeat case_decide; set_solver.
  - rewrite lookup_insert. repeat case_decide; set_solver.
Qed.

Lemma globalMapByUID_snoc objects o k :
  globalMapByUID (buildIndex (objects ++ [o])) !! k
  = if decide (k ∈ indexKeys o) then Some (length objects)
    else globalMapByUID (buildIndex objects) !! k.
Proof.
  rewrite buildIndex_snoc, globalMapByUID_indexObject.
  by rewrite length_nodes_buildIndex.
Qed.

(** Last write wins: a key resolves to the last object entered under it. *)
Lemma globalMapByUID_lookup objects k i :
  globalMapByUID (buildIndex objects) !! k = Some i
  ↔ (∃ o, objects !! i = Some o ∧ k ∈ indexKeys o)
    ∧ ∀ j o', objects !! j = Some o' → k ∈ indexKeys o' → j ≤ i.
Proof.
  revert i. induction objects as [|o objects IH] using rev_ind; intros i.
  - split; [done|]. by intros [(o & Ho & _) _].
  - rewrite globalMapByUID_snoc. case_decide as Hk.
    + split.
      * intros [= <-]. split.
        -- exists o. by rewrite lookup_app_r, Nat.sub_diag by done.
        -- intros j o' Hj _. apply lookup_lt_Some in Hj.
           rewrite length_app in Hj. simpl in Hj. lia.
      * intros [(o1 & Ho1 & _) Hlast].
        pose proof (lookup_lt_Some _ _ _ Ho1) as Hlt.
        rewrite length_app in Hlt. simpl in Hlt.
        specialize (Hlast (length objects) o).
        rewrite lookup_app_r, Nat.sub_diag in Hlast by done.
        specialize (Hlast eq_refl Hk). f_equal. lia.
    + rewrite IH. split.
      * intros [(o1 & Ho1 & Hk1) Hlast]. split.
        -- exists o1. by rewrite lookup_app_l by by eapply lookup_lt_Some.
        -- intros j o' Hj Hk'.
           destruct (decide (j < length objects)) as [Hlt|Hge].
           ++ rewrite lookup_app_l in Hj by done. by eapply Hlast.
           ++ rewrite lookup_app_r in Hj by lia.
              apply list_lookup_singleton_Some in Hj as [_ <-]. done.
      * intros [(o1 & Ho1 & Hk1) Hlast].
        assert (i < length objects) as Hlt.
        { destruct (decide (i < length objects)); [done|].
          rewrite lookup_app_r in Ho1 by lia.
          apply list_lookup_singleton_Some in Ho1 as [_ <-]. done. }
        rewrite lookup_app_l in Ho1 by done. split; [by exists o1|].
        intros j o' Hj Hk'. apply (Hlast j o'); [|done].
        by rewrite lookup_app_l by by eapply lookup_lt_Some.
Qed.

Lemma globalMapByUID_lookup_None objects k :
  globalMapByUID (buildIndex objects) !! k = None
  ↔ ∀ o, o ∈ objects → k ∉ indexKeys o.
Proof.
  induction objects as [|o objects IH] using rev_ind.
  - split; [|done]. intros _ o Ho. by inversion Ho.
  - rewrite globalMapByUID_snoc. case_decide as Hk.
    + split; [done|]. intros Hall. exfalso. apply (Hall o); set_solver.
    + rewrite IH. set_solver.
Qed.

Lemma globalMapByUID_lt objects k i :
  globalMapByUID (buildIndex objects) !! k = Some i → i < length objects.
Proof.
  intros [(o & Ho & _) _]%globalMapByUID_lookup. by eapply lookup_lt_Some.
Qed.

Lemma globalMapByKey_lt objects k i :
  globalMapByKey (buildIndex objects) !! k = Some i → i < length objects.
Proof.
  revert i. induction objects as [|o objects IH] using rev_ind; intros i.
  - done.
  - rewrite buildIndex_snoc. simpl. rewrite lookup_insert.
    rewrite length_app, length_nodes_buildIndex. simpl.
    case_decide; [intros [= <-]; lia|]. intros ?%IH. lia.
Qed.

(** Every object's identifier is a key of the by-identifier index. *)
Lemma GetUID_indexed objects o :
  o ∈ objects → is_Some (globalMapByUID (buildIndex objects) !! GetUID o).
Proof.
  intros Ho. destruct (globalMapByUID (buildIndex objects) !! GetUID o)
    as [i|] eqn:Hi; [by eexists|].
  rewrite globalMapByUID_lookup_None in Hi.
  exfalso. eapply Hi; [done|]. apply GetUID_indexKeys.
Qed.
End Index.

(** ** The relationship passes *)

Section Passes.
Context `{LabelsSelector Sel} `{Unstructured U}.
Context (ord : RangeOrder).
Context (byUID : gmap types_UID nat) (byKey : gmap ObjectReferenceKey nat).
Context (sh : list (Node U)).
Hypothesis byUID_valid : ∀ k p, byUID !! k = Some p → p < length sh.
Hypothesis byKey_valid : ∀ k p, byKey !! k = Some p → p < length sh.
Hypothesis sh_static : static <$> sh = sh.
Implicit Types (h : list (Node U)) (p q n : nat) (d uid : types_UID).

Lemma sh_static_lookup p nd : sh !! p = Some nd → static nd = nd.
Proof.
  intros Hnd. pose proof (static_lookup _ _ _ _ sh_static Hnd). congruence.
Qed.

Lemma elem_of_range {A} (m : gmap string A) k v :
  (k, v) ∈ range ord m ↔ m !! k = Some v.
Proof. by rewrite range_perm, elem_of_map_to_list. Qed.

Lemma elem_of_rangeSet (X : gset string) r : r ∈ rangeSet ord X ↔ r ∈ X.
Proof. by rewrite rangeSet_perm, elem_of_elements. Qed.

Lemma adds_addDependents n uid rset :
  n < length sh →
  adds sh (addDependents ord n uid rset)
       (λ q d r, q = n ∧ d = uid ∧ r ∈ rset).
Proof.
  intros Hn. unfold addDependents.
  eapply adds_iff; [|apply (adds_foldl sh (λ h r, AddDependent n uid r h) _
                             (λ r q d r', q = n ∧ d = uid ∧ r' = r))].
  - intros q d r. setoid_rewrite elem_of_rangeSet. naive_solver.
  - intros r _. by apply adds_AddDependent.
Qed.

Lemma adds_addDependentsOf p n rset :
  p < length sh →
  adds sh (addDependentsOf ord p n rset)
       (λ q d r, ∃ nn, sh !! n = Some nn ∧ q = p ∧ d = UID nn ∧ r ∈ rset).
Proof.
  intros Hp. unfold addDependentsOf.
  eapply adds_iff;
    [|apply (adds_foldl sh _ _
               (λ r q d r', ∃ nn, sh !! n = Some nn ∧ q = p ∧ d = UID nn
                                  ∧ r' = r))].
  - intros q d r. setoid_rewrite elem_of_rangeSet. naive_solver.
  - intros r _. destruct (sh !! n) as [nn|] eqn:Hnn.
    + eapply adds_ext with (f := AddDependent p (UID nn) r).
      * intros h Hsh. destruct (static_lookup_inv _ _ _ _ Hsh Hnn)
          as (n0 & -> & <-). done.
      * eapply adds_iff; [|by apply adds_AddDependent]. naive_solver.
    + eapply adds_ext with (f := λ h, h).
      * intros h Hsh. destruct (h !! n) as [n0|] eqn:Hn0; [|done].
        apply (static_lookup _ _ _ _ Hsh) in Hn0. congruence.
      * eapply adds_iff; [|apply adds_skip]. naive_solver.
Qed.

(** *** Label selectors *)

Lemma resolveSelectorToNodes_static h ols :
  resolveSelectorToNodes ord byUID h ols
  = resolveSelectorToNodes ord byUID (static <$> h) ols.
Proof.
  unfold resolveSelectorToNodes. apply foldl_ext_in.
  intros acc [k n] _. rewrite list_lookup_fmap.
  by destruct (h !! n) as [nn|].
Qed.

Lemma elem_of_resolveSelectorToNodes ols n :
  n ∈ resolveSelectorToNodes ord byUID sh ols ↔ selects byUID sh ols n.
Proof.
  unfold resolveSelectorToNodes, selects.
  setoid_rewrite <-(elem_of_range byUID).
  assert (∀ acc,
    n ∈ foldl (λ result '(_, n0),
                 match sh !! n0 with
                 | Some nn =>
                     if decide (Group nn = ols_Group ols
                                ∧ Kind nn = ols_Kind ols
                                ∧ Namespace nn = ols_Namespace ols) then
                       if Matches (ols_Selector ols)
                                  (GetLabels (node_Unstructured nn))
                       then result ++ [n0] else result
                     else result
                 | None => result
                 end) acc (range ord byUID)
    ↔ n ∈ acc ∨ ∃ k nn, (k, n) ∈ range ord byUID ∧ sh !! n = Some nn
        ∧ Group nn = ols_Group ols ∧ Kind nn = ols_Kind ols
        ∧ Namespace nn = ols_Namespace ols
        ∧ Matches (ols_Selector ols) (GetLabels (node_Unstructured nn))
          = true) as Hfold.
  { induction (range ord byUID) as [|[k n0] l IH]; intros acc.
    - simpl. split; [by left|]. intros [?|(?&?&Hin&_)]; [done|].
      by inversion Hin.
    - simpl. rewrite IH. clear IH. split.
      + intros [Hacc|(k' & nn' & Hin & Hrest)].
        * destruct (sh !! n0) as [nn|] eqn:Hnn; [|by left].
          case_decide as Hg; [|by left].
          destruct (Matches _ _) eqn:Hm; [|by left].
          apply elem_of_app in Hacc as [?|Hn]; [by left|].
          apply list_elem_of_singleton in Hn as ->.
          right. exists k, nn. split; [by left|]. naive_solver.
        * right. exists k', nn'. split; [by right|done].
      + intros [Hacc|(k' & nn' & Hin & Hnn' & Hg & Hk & Hns & Hm)].
        * left. destruct (sh !! n0) as [nn|]; [|done].
          case_decide; [|done]. destruct (Matches _ _); [|done].
          apply elem_of_app. by left.
        * apply elem_of_cons in Hin as [Heq|Hin].
          -- injection Heq as -> ->. left. rewrite Hnn'.
             rewrite decide_True by done. rewrite Hm.
             apply elem_of_app. right. by apply list_elem_of_singleton.
          -- right. by exists k', nn'. }
  rewrite Hfold. split; [intros [Hnil|?]; [by inversion Hnil|done]|by right].
Qed.

(** *** Merging one relationship map *)

Lemma adds_selected (step : nat → list (Node U) → list (Node U))
    (P : nat → nat → types_UID → Relationship → Prop) ols :
  (∀ n, n < length sh → adds sh (step n) (P n)) →
  adds sh (λ h, foldl (λ h n, step n h) h (resolveSelectorToNodes ord byUID h ols))
       (λ q d r, ∃ n, selects byUID sh ols n ∧ P n q d r).
Proof.
  intros Hstep.
  eapply adds_ext with
    (f := λ h, foldl (λ h n, step n h) h
                     (resolveSelectorToNodes ord byUID sh ols)).
  { intros h <-. by rewrite resolveSelectorToNodes_static. }
  eapply adds_iff; [|apply (adds_foldl sh (λ h n, step n h) _ P)].
  - intros q d r. by setoid_rewrite elem_of_resolveSelectorToNodes.
  - intros n (k & nn & Hk & _)%elem_of_resolveSelectorToNodes.
    apply Hstep. by eapply byUID_valid.
Qed.

Lemma adds_range {A} (m : gmap string A)
    (step : list (Node U) → string * A → list (Node U))
    (P : string → A → nat → types_UID → Relationship → Prop) :
  (∀ k v, m !! k = Some v → adds sh (λ h, step h (k, v)) (P k v)) →
  adds sh (λ h, foldl step h (range ord m))
       (λ q d r, ∃ k v, m !! k = Some v ∧ P k v q d r).
Proof.
  intros Hstep.
  eapply adds_iff;
    [|apply (adds_foldl sh step _ (λ kv, P kv.1 kv.2))].
  - intros q d r. split.
    + intros ([k v] & Hin%elem_of_range & HP). by exists k, v.
    + intros (k & v & Hin%elem_of_range & HP). by exists (k, v).
  - intros [k v] Hin%elem_of_range. by apply Hstep.
Qed.

Lemma adds_updateRelationships p rmap :
  adds sh (updateRelationships ord byUID byKey p rmap)
       (declared byUID byKey sh p rmap).
Proof.
  destruct (sh !! p) as [nd|] eqn:Hnd.
  2:{ eapply adds_ext with (f := λ h, h).
      - intros h Hsh. unfold updateRelationships.
        destruct (h !! p) as [n0|] eqn:Hn0; [|done].
        apply (static_lookup _ _ _ _ Hsh) in Hn0. congruence.
      - eapply adds_iff; [|apply adds_skip].
        intros q d r. split; [done|]. unfold declared.
        intros (? & ? & _). congruence. }
  pose proof (lookup_lt_Some _ _ _ Hnd) as Hp.
  set (uid := UID nd).
  pose proof (adds_range (DependenciesByRef rmap)
    (λ h '(k, rset), match byKey !! k with
                     | Some n => addDependents ord n uid rset h
                     | None => h
                     end)
    (λ k rset q d r, byKey !! k = Some q ∧ d = uid ∧ r ∈ rset)) as H1.
  pose proof (adds_range (DependentsByRef rmap)
    (λ h '(k, rset), match byKey !! k with
                     | Some n => addDependentsOf ord p n rset h
                     | None => h
                     end)
    (λ k rset q d r, ∃ n nn, byKey !! k = Some n ∧ sh !! n = Some nn
                             ∧ q = p ∧ d = UID nn ∧ r ∈ rset)) as H2.
  pose proof (adds_range (DependenciesByLabelSelector rmap)
    (λ h '(k, rset),
       match ObjectLabelSelectors rmap !! k with
       | Some ols => foldl (λ h n, addDependents ord n uid rset h) h
                           (resolveSelectorToNodes ord byUID h ols)
       | None => h
       end)
    (λ k rset q d r, ∃ ols, ObjectLabelSelectors rmap !! k = Some ols
                            ∧ selects byUID sh ols q ∧ d = uid ∧ r ∈ rset))
    as H3.
  pose proof (adds_range (DependentsByLabelSelector rmap)
    (λ h '(k, rset),
       match ObjectLabelSelectors rmap !! k with
       | Some ols => foldl (λ h n, addDependentsOf ord p n rset h) h
                           (resolveSelectorToNodes ord byUID h ols)
       | None => h
       end)
    (λ k rset q d r, ∃ ols n nn, ObjectLabelSelectors rmap !! k = Some ols
                                 ∧ selects byUID sh ols n ∧ sh !! n = Some nn
                                 ∧ q = p ∧ d = UID nn ∧ r ∈ rset)) as H4.
  pose proof (adds_range (DependenciesByUID rmap)
    (λ h '(k, rset), match byUID !! k with
                     | Some n => addDependents ord n uid rset h
                     | None => h
                     end)
    (λ k rset q d r, byUID !! k = Some q ∧ d = uid ∧ r ∈ rset)) as H5.
  pose proof (adds_range (DependentsByUID rmap)
    (λ h '(k, rset), match byUID !! k with
                     | Some n => addDependentsOf ord p n rset h
                     | None => h
                     end)
    (λ k rset q d r, ∃ n nn, byUID !! k = Some n ∧ sh !! n = Some nn
                             ∧ q = p ∧ d = UID nn ∧ r ∈ rset)) as H6.
  assert (∀ (m : gmap string nat),
            (∀ k n, m !! k = Some n → n < length sh) →
            ∀ k rset,
            adds sh (λ h, match m !! k with
                          | Some n => addDependents ord n uid rset h
                          | None => h
                          end)
                 (λ q d r, m !! k = Some q ∧ d = uid ∧ r ∈ rset)) as Hdep.
  { intros m Hm k rset. destruct (m !! k) as [n|] eqn:Hk.
    - eapply adds_iff; [|apply adds_addDependents; by eapply Hm].
      naive_solver.
    - eapply adds_iff; [|apply adds_skip]. naive_solver. }
  assert (∀ (m : gmap string nat) k rset,
            adds sh (λ h, match m !! k with
                          | Some n => addDependentsOf ord p n rset h
                          | None => h
                          end)
                 (λ q d r, ∃ n nn, m !! k = Some n ∧ sh !! n = Some nn
                                   ∧ q = p ∧ d = UID nn ∧ r ∈ rset)) as Hof.
  { intros m k rset. destruct (m !! k) as [n|] eqn:Hk.
    - eapply adds_iff; [|by apply adds_addDependentsOf]. naive_solver.
    - eapply adds_iff; [|apply adds_skip]. naive_solver. }
  specialize (H1 (λ k rset _, Hdep byKey byKey_valid k rset)).
  specialize (H2 (λ k rset _, Hof byKey k rset)).
  specialize (H5 (λ k rset _, Hdep byUID byUID_valid k rset)).
  specialize (H6 (λ k rset _, Hof byUID k rset)).
  assert (adds sh _ _) as H3' by (apply H3; intros k rset _;
    destruct (ObjectLabelSelectors rmap !! k) as [ols|];
    [ eapply adds_iff;
        [|apply (adds_selected (λ n, addDependents ord n uid rset)
                   (λ n q d r, q = n ∧ d = uid ∧ r ∈ rset));
          intros; by apply adds_addDependents];
      naive_solver
    | eapply adds_iff; [|apply adds_skip]; naive_solver ]).
  assert (adds sh _ _) as H4' by (apply H4; intros k rset _;
    destruct (ObjectLabelSelectors rmap !! k) as [ols|];
    [ eapply adds_iff;
        [|apply (adds_selected (λ n, addDependentsOf ord p n rset)
                   (λ n q d r, ∃ nn, sh !! n = Some nn ∧ q = p
                                     ∧ d = UID nn ∧ r ∈ rset));
          intros; by apply adds_addDependentsOf];
      naive_solver
    | eapply adds_iff; [|apply adds_skip]; naive_solver ]).
  clear H3 H4 Hdep Hof.
  pose proof (adds_compose _ _ _ _ _
    (adds_compose _ _ _ _ _
      (adds_compose _ _ _ _ _
        (adds_compose _ _ _ _ _ (adds_compose _ _ _ _ _ H1 H2) H3') H4')
      H5) H6) as Hall.
  eapply adds_ext; [|eapply adds_iff; [|exact Hall]].
  - intros h Hsh. unfold updateRelationships.
    destruct (static_lookup_inv _ _ _ _ Hsh Hnd) as (n0 & -> & <-). done.
  - intros q d r. unfold declared. rewrite Hnd. subst uid. split.
    + intros [[[[[H'|H']|H']|H']|H']|H']; exists nd; (split; [done|]);
        naive_solver.
    + intros (nd' & [= <-] & H'). naive_solver.
Qed.

(** *** The owner-reference pass *)

Lemma adds_addOwnerReference uid ref :
  adds sh (λ h, addOwnerReference byUID uid h ref)
       (λ q d r, byUID !! or_UID ref = Some q ∧ d = uid
                 ∧ (r = RelationshipOwnerRef
                    ∨ (r = RelationshipControllerRef
                       ∧ or_Controller ref = Some true))).
Proof.
  unfold addOwnerReference. destruct (byUID !! or_UID ref) as [n|] eqn:Hn.
  2:{ eapply adds_iff; [|apply adds_skip]. naive_solver. }
  pose proof (byUID_valid _ _ Hn) as Hlt.
  pose proof (adds_AddDependent sh n uid RelationshipOwnerRef Hlt) as Ho.
  pose proof (adds_AddDependent sh n uid RelationshipControllerRef Hlt) as Hc.
  destruct (or_Controller ref) as [[|]|].
  - eapply adds_iff; [|exact (adds_compose _ _ _ _ _ Hc Ho)]. naive_solver.
  - eapply adds_iff; [|exact Ho]. naive_solver.
  - eapply adds_iff; [|exact Ho]. naive_solver.
Qed.

Lemma adds_populateOwnerDependents :
  adds sh (populateOwnerDependents ord byUID) (ownerEdge byUID sh).
Proof.
  unfold populateOwnerDependents.
  eapply adds_iff;
    [|apply (adds_range byUID _
               (λ k p q d r, ∃ nd ref, sh !! p = Some nd ∧ d = UID nd
                  ∧ ref ∈ OwnerReferences nd ∧ byUID !! or_UID ref = Some q
                  ∧ (r = RelationshipOwnerRef
                     ∨ (r = RelationshipControllerRef
                        ∧ or_Controller ref = Some true))))].
  - intros q d r. unfold ownerEdge. split.
    + intros (k & p & Hk & nd & ref & Hrest). by exists k, p, nd, ref.
    + intros (k & p & nd & ref & Hk & Hrest).
      exists k, p. split; [done|]. by exists nd, ref.
  - intros k p Hk. destruct (sh !! p) as [nd|] eqn:Hnd.
    + eapply adds_ext with
        (f := λ h, foldl (addOwnerReference byUID (UID nd)) h
                         (OwnerReferences nd)).
      { intros h Hsh.
        destruct (static_lookup_inv _ _ _ _ Hsh Hnd) as (n0 & -> & <-).
        done. }
      eapply adds_iff; [|apply adds_foldl; intros ref _;
                          apply adds_addOwnerReference].
      intros q d r. simpl. naive_solver.
    + eapply adds_ext with (f := λ h, h).
      { intros h Hsh. destruct (h !! p) as [n0|] eqn:Hn0; [|done].
        apply (static_lookup _ _ _ _ Hsh) in Hn0. congruence. }
      eapply adds_iff; [|apply adds_skip]. naive_solver.
Qed.

(** *** The extractor pass *)

Lemma adds_addsWithin f P Q :
  (∀ q d r, P q d r → Q q d r) → adds sh f P → addsWithin sh f Q.
Proof.
  intros HPQ Hf h Hsh. destruct (Hf h Hsh) as (? & ? & Hl).
  split_and!; [done..|]. intros q d r. rewrite Hl. naive_solver.
Qed.

Lemma addsWithin_foldl {X} (step : list (Node U) → X → list (Node U))
    (l : list X) Q :
  (∀ x, x ∈ l → addsWithin sh (λ h, step h x) Q) →
  addsWithin sh (λ h, foldl step h l) Q.
Proof.
  induction l as [|x l IH] using rev_ind; intros Hstep h Hsh.
  - simpl. split_and!; [done..|]. naive_solver.
  - rewrite foldl_app. simpl.
    assert (∀ y, y ∈ l → addsWithin sh (λ h, step h y) Q) as Hstep'.
    { intros y Hy. apply Hstep. set_solver. }
    destruct (IH Hstep' h Hsh) as (Hsh1 & Hne1 & Hl1).
    assert (x ∈ l ++ [x]) as Hx by set_solver.
    destruct (Hstep x Hx _ Hsh1) as (Hsh2 & Hne2 & Hl2).
    split_and!; [done|auto|]. intros q d r.
    destruct (Hl1 q d r), (Hl2 q d r). naive_solver.
Qed.

Context (E : Extractors Sel U).

Lemma addsWithin_populateRelationships :
  addsWithin sh (populateRelationships ord E byUID byKey)
             (extractorEdge E byUID byKey sh).
Proof.
  unfold populateRelationships. apply addsWithin_foldl.
  intros [k p] Hk%elem_of_range h Hsh.
  destruct (h !! p) as [node|] eqn:Hnode.
  2:{ split_and!; [done..|]. naive_solver. }
  destruct (dispatch E node) as [[err|rmap]|] eqn:Hd.
  1,3: split_and!; [done..|]; naive_solver.
  destruct (adds_updateRelationships p rmap h Hsh) as (? & ? & Hl).
  split_and!; [done..|]. intros q d r. rewrite Hl.
  split; [by left|]. intros [?|Hdecl]; [by left|]. right.
  exists k, p, node, rmap. split_and!; [done| |done..].
  exact (static_lookup _ _ _ _ Hsh Hnode).
Qed.

Lemma adds_populateRelationships :
  readsStaticFields E →
  adds sh (populateRelationships ord E byUID byKey)
       (extractorEdge E byUID byKey sh).
Proof.
  intros Hpure. unfold populateRelationships.
  eapply adds_iff;
    [|apply (adds_range byUID _
               (λ k p q d r, ∃ nd rmap, sh !! p = Some nd
                  ∧ dispatch E nd = Some (inr rmap)
                  ∧ declared byUID byKey sh p rmap q d r))].
  - intros q d r. unfold extractorEdge. split.
    + intros (k & p & Hk & nd & rmap & Hnd & Hd & Hdecl).
      exists k, p, nd, rmap. split_and!; [done| |done..].
      rewrite Hnd. f_equal. symmetry. by eapply sh_static_lookup.
    + intros (k & p & nd & rmap & Hk & Hnd & Hd & Hdecl).
      exists k, p. split; [done|]. exists (static nd), rmap.
      by rewrite <-Hpure.
  - intros k p Hk. destruct (sh !! p) as [nd|] eqn:Hnd.
    + destruct (dispatch E nd) as [[err|rmap]|] eqn:Hd.
      * eapply adds_ext with (f := λ h, h).
        { intros h Hsh.
          destruct (static_lookup_inv _ _ _ _ Hsh Hnd) as (n0 & -> & <-).
          by rewrite Hpure, Hd. }
        eapply adds_iff; [|apply adds_skip]. naive_solver.
      * eapply adds_ext with (f := updateRelationships ord byUID byKey p rmap).
        { intros h Hsh.
          destruct (static_lookup_inv _ _ _ _ Hsh Hnd) as (n0 & -> & <-).
          by rewrite Hpure, Hd. }
        eapply adds_iff; [|apply adds_updateRelationships]. naive_solver.
      * eapply adds_ext with (f := λ h, h).
        { intros h Hsh.
          destruct (static_lookup_inv _ _ _ _ Hsh Hnd) as (n0 & -> & <-).
          by rewrite Hpure, Hd. }
        eapply adds_iff; [|apply adds_skip]. naive_solver.
    + eapply adds_ext with (f := λ h, h).
      { intros h Hsh. destruct (h !! p) as [n0|] eqn:Hn0; [|done].
        apply (static_lookup _ _ _ _ Hsh) in Hn0. congruence. }
      eapply adds_iff; [|apply adds_skip]. naive_solver.
Qed.
End Passes.

(** ** The traversal *)

Section Traversal.
Context {U : Type} (ord : RangeOrder).
Context (byUID : gmap types_UID nat) (h : list (Node U)).
Implicit Types (t : Traversal) (nm : NodeMap) (u d root : types_UID).

Lemma elem_of_range_keys {A} (m : gmap string A) d :
  d ∈ (range ord m).*1 ↔ d ∈ dom m.
Proof.
  rewrite list_elem_of_fmap, elem_of_dom. split.
  - intros ([k v] & -> & Hin). rewrite range_perm in Hin.
    apply elem_of_map_to_list in Hin. by exists v.
  - intros [v Hv]. exists (d, v). split; [done|].
    rewrite range_perm. by apply elem_of_map_to_list.
Qed.

Lemma lookup_enter nm (ds : list types_UID) u :
  foldl (λ nm dUID, <[dUID := byUID !! dUID]> nm) nm ds !! u
  = if decide (u ∈ ds) then Some (byUID !! u) else nm !! u.
Proof.
  revert nm. induction ds as [|d ds IH] using rev_ind; intros nm.
  - rewrite decide_False by apply not_elem_of_nil. done.
  - rewrite foldl_app. simpl. rewrite lookup_insert.
    destruct (decide (d = u)) as [Hd|Hd].
    + subst. rewrite decide_True; [done|].
      apply elem_of_app. right. by apply list_elem_of_singleton.
    + rewrite IH. rewrite (decide_ext (u ∈ ds ++ [d]) (u ∈ ds)); [done|].
      rewrite elem_of_app, list_elem_of_singleton. naive_solver.
Qed.

Lemma dom_enter nm (ds : list types_UID) :
  dom (foldl (λ nm dUID, <[dUID := byUID !! dUID]> nm) nm ds)
  = dom nm ∪ list_to_set ds.
Proof.
  apply set_eq. intros u. rewrite elem_of_dom, lookup_enter.
  rewrite elem_of_union, elem_of_list_to_set, elem_of_dom.
  case_decide; naive_solver.
Qed.

Lemma nodeAt_Some nm u node :
  nodeAt h nm u = Some node
  ↔ ∃ p, nm !! u = Some (Some p) ∧ h !! p = Some node.
Proof.
  unfold nodeAt. destruct (nm !! u) as [[p|]|]; naive_solver.
Qed.

Lemma Dependents_universe root p node d :
  h !! p = Some node → d ∈ dom (Dependents node) → d ∈ universe root h.
Proof.
  intros Hp Hd. unfold universe. apply elem_of_union_r.
  apply elem_of_union_list. exists (dom (Dependents node)). split; [|done].
  apply list_elem_of_fmap. exists node. split; [done|].
  by eapply list_elem_of_lookup_2.
Qed.

(** The invariant holds initially and is kept by every iteration. *)
Lemma traversalInv_initial root :
  traversalInv byUID h root (initialTraversal byUID root).
Proof.
  unfold initialTraversal. destruct (byUID !! root) as [p|] eqn:Hroot.
  - split; simpl.
    + intros u v [<- <-]%lookup_singleton_Some. split; [done|].
      apply rtc_refl.
    + intros u ->%list_elem_of_singleton. set_solver.
    + set_solver.
    + set_solver.
    + intros u. rewrite dom_singleton_L. set_solver.
    + rewrite dom_singleton_L. unfold universe. set_solver.
  - split; simpl; set_solver.
Qed.

Lemma traversalInv_visit root t t' :
  traversalInv byUID h root t → visit ord byUID h t = inl t' →
  traversalInv byUID h root t'.
Proof.
  intros [Hsound Hqueue Hseen Hclosed Hpend Huniv]. unfold visit.
  destruct (uidQueue t) as [|uid rest] eqn:Hq; [done|].
  case_decide as Hvisited.
  { (* already visited: the head is dropped *)
    intros [= <-]. split; simpl; try done.
    - intros u Hu. apply Hqueue. set_solver.
    - intros u Hu. destruct (Hpend u Hu) as [?|Hin]; [by left|].
      apply elem_of_cons in Hin as [->|?]; [by left|by right]. }
  assert (uid ∈ dom (nodeMap t)) as Huid by (apply Hqueue; set_solver).
  apply elem_of_dom in Huid as [v Hv].
  destruct (Hsound _ _ Hv) as [-> Hreach].
  destruct (nodeAt h (nodeMap t) uid) as [node|] eqn:Hnode.
  - (* the node's dependents are entered and enqueued *)
    apply nodeAt_Some in Hnode as (p & Hp & Hnode).
    rewrite Hv in Hp. injection Hp as Hp.
    intros [= <-]. split; simpl.
    + intros u v. rewrite lookup_enter. case_decide as Hu.
      * intros [= <-]. split; [done|].
        eapply rtc_r; [exact Hreach|]. exists p, node.
        split_and!; [done..|]. by apply elem_of_range_keys in Hu.
      * apply Hsound.
    + intros u. rewrite dom_enter, elem_of_app. intros [Hu|Hu].
      * apply elem_of_union_l, Hqueue. set_solver.
      * apply elem_of_union_r. by apply elem_of_list_to_set.
    + intros u. rewrite dom_enter. intros [->%elem_of_singleton|Hu]%elem_of_union.
      * apply elem_of_union_l, elem_of_dom. by eexists.
      * by apply elem_of_union_l, Hseen.
    + intros u d. rewrite dom_enter.
      intros [->%elem_of_singleton|Hu]%elem_of_union Hdep.
      * apply elem_of_union_r, elem_of_list_to_set, elem_of_range_keys.
        destruct Hdep as (p' & node' & Hp' & Hnode' & Hd).
        by simplify_eq.
      * by eapply elem_of_union_l, Hclosed.
    + intros u. rewrite dom_enter.
      intros [Hu|Hu%elem_of_list_to_set]%elem_of_union.
      * destruct (Hpend u Hu) as [?|Hin]; [left; set_solver|].
        apply elem_of_cons in Hin as [->|?]; [left; set_solver|].
        right. set_solver.
      * right. set_solver.
    + rewrite dom_enter. apply union_subseteq. split; [done|].
      intros d Hd%elem_of_list_to_set%elem_of_range_keys.
      by eapply Dependents_universe.
  - (* a nil node: only marked as visited *)
    intros [= <-]. split; simpl; try done.
    + intros u [->%elem_of_singleton|Hu]%elem_of_union; [|by apply Hseen].
      apply elem_of_dom. by eexists.
    + intros u d [->%elem_of_singleton|Hu]%elem_of_union Hdep;
        [|by eapply Hclosed].
      destruct Hdep as (p' & node' & Hp' & Hnode' & Hd).
      unfold nodeAt in Hnode. rewrite Hv, Hp', Hnode' in Hnode. done.
    + intros u Hu.
      destruct (Hpend u Hu) as [?|Hin]; [left; set_solver|]. by right.
Qed.

(** At the [break], the map holds exactly the reachable identifiers. *)
Lemma traversalInv_break root t nm :
  traversalInv byUID h root t → visit ord byUID h t = inr nm →
  nm = nodeMap t
  ∧ (∀ u v, nm !! u = Some v → v = byUID !! u ∧ reachable byUID h root u)
  ∧ (∀ u d, u ∈ dom nm → dependentOf byUID h u d → d ∈ dom nm).
Proof.
  intros [Hsound Hqueue Hseen Hclosed Hpend Huniv]. unfold visit.
  destruct (uidQueue t) as [|uid rest] eqn:Hq.
  - intros [= <-]. split_and!; [done..|].
    intros u d Hu Hdep. destruct (Hpend u Hu) as [?|Hin].
    + by eapply Hclosed.
    + by inversion Hin.
  - case_decide; [done|]. by destruct (nodeAt _ _ _).
Qed.

Lemma traverse_mono fuel fuel' t nm :
  fuel ≤ fuel' → traverse ord byUID fuel h t = Some nm →
  traverse ord byUID fuel' h t = Some nm.
Proof.
  revert fuel' t. induction fuel as [|fuel IH]; intros fuel' t Hle; [done|].
  destruct fuel' as [|fuel']; [lia|]. simpl.
  destruct (visit ord byUID h t) as [t'|nm']; [|done].
  apply IH. lia.
Qed.

(** The loop reaches its [break]: each iteration either drops the head
    of the queue or marks a new identifier of the universe. *)
Lemma traverse_terminates root t :
  traversalInv byUID h root t →
  ∃ fuel nm, traverse ord byUID fuel h t = Some nm
    ∧ (∀ u v, nm !! u = Some v → v = byUID !! u ∧ reachable byUID h root u)
    ∧ (∀ u d, u ∈ dom nm → dependentOf byUID h u d → d ∈ dom nm)
    ∧ dom (nodeMap t) ⊆ dom nm.
Proof.
  remember (size (universe root h ∖ uidSet t)) as a eqn:Ha.
  remember (length (uidQueue t)) as b eqn:Hb.
  revert b t Ha Hb.
  induction a as [a IHa] using lt_wf_ind.
  induction b as [b IHb] using lt_wf_ind.
  intros t Ha Hb Hinv.
  destruct (visit ord byUID h t) as [t'|nm] eqn:Hvisit.
  2:{ exists 1, nm. simpl. rewrite Hvisit.
      destruct (traversalInv_break _ _ _ Hinv Hvisit) as (-> & ? & ?).
      done. }
  pose proof (traversalInv_visit _ _ _ Hinv Hvisit) as Hinv'.
  assert (dom (nodeMap t) ⊆ dom (nodeMap t')
          ∧ ((uidSet t' = uidSet t ∧ length (uidQueue t') < b)
             ∨ size (universe root h ∖ uidSet t') < a)) as [Hdom Hless].
  { destruct Hinv as [Hsound Hqueue Hseen Hclosed Hpend Huniv].
    unfold visit in Hvisit.
    destruct (uidQueue t) as [|uid rest] eqn:Hq; [done|].
    assert (uid ∈ universe root h) as Hin.
    { apply Huniv, Hqueue. set_solver. }
    assert (uid ∉ uidSet t →
            size (universe root h ∖ ({[uid]} ∪ uidSet t)) < a) as Hsize.
    { intros Hnew. subst a. apply subset_size. set_solver. }
    case_decide as Hvisited.
    - injection Hvisit as <-. simpl. split; [done|]. left.
      split; [done|]. subst b. simpl. lia.
    - destruct (nodeAt h (nodeMap t) uid) as [node|];
        injection Hvisit as <-; simpl.
      + split; [|right; by apply Hsize]. rewrite dom_enter. set_solver.
      + split; [done|right; by apply Hsize]. }
  destruct Hless as [[Hset Hlen]|Hsize].
  - destruct (IHb _ Hlen t') as (fuel & nm & Hrun & ? & ? & ?);
      [by rewrite Hset|done..|].
    exists (S fuel), nm. simpl. rewrite Hvisit. split_and!; [done..|].
    set_solver.
  - destruct (IHa _ Hsize _ t' eq_refl eq_refl Hinv')
      as (fuel & nm & Hrun & ? & ? & ?).
    exists (S fuel), nm. simpl. rewrite Hvisit. split_and!; [done..|].
    set_solver.
Qed.
End Traversal.

(** ** The resolved graph *)

Section Resolve.
Context `{LabelsSelector Sel} `{Unstructured U}.
Context (ord : RangeOrder) (E : Extractors Sel U) (objects : list U).
Implicit Types (p q : nat) (u d root : types_UID) (node : Node U).

Local Abbreviation byUID := (globalMapByUID (buildIndex objects)).
Local Abbreviation byKey := (globalMapByKey (buildIndex objects)).
Local Abbreviation sh := (nodes (buildIndex objects)).
Local Abbreviation h1 := (ownerNodes ord objects).
Local Abbreviation h := (resolvedNodes ord E objects).

Lemma static_nodes : static <$> sh = sh.
Proof.
  rewrite nodes_buildIndex, <-list_fmap_compose. by apply list_fmap_ext.
Qed.

Lemma nodes_lookup p nd :
  sh !! p = Some nd ↔ ∃ o, objects !! p = Some o ∧ nd = nodeOf o.
Proof.
  rewrite nodes_buildIndex, list_lookup_fmap.
  destruct (objects !! p) as [o|]; naive_solver.
Qed.

Lemma noEmptyEntries_nodes : noEmptyEntries sh.
Proof. intros q n d rs (o & _ & ->)%nodes_lookup. done. Qed.

Lemma labels_nodes q d : labels sh q d = ∅.
Proof.
  unfold labels. destruct (sh !! q) as [n|] eqn:Hn; [|done].
  apply nodes_lookup in Hn as (o & _ & ->). done.
Qed.

Lemma byUID_valid k p : byUID !! k = Some p → p < length sh.
Proof. rewrite length_nodes_buildIndex. apply globalMapByUID_lt. Qed.

Lemma byKey_valid k p : byKey !! k = Some p → p < length sh.
Proof. rewrite length_nodes_buildIndex. apply globalMapByKey_lt. Qed.

(** The owner-reference pass records exactly the owner edges. *)
Lemma ownerPass_spec :
  static <$> h1 = sh ∧ noEmptyEntries h1
  ∧ ∀ q d r, r ∈ labels h1 q d ↔ ownerEdge byUID sh q d r.
Proof.
  destruct (adds_populateOwnerDependents ord byUID sh byUID_valid sh
              static_nodes) as (Hsh & Hne & Hl).
  split_and!; [done|by apply Hne, noEmptyEntries_nodes|].
  intros q d r. rewrite Hl, labels_nodes. set_solver.
Qed.

(** The extractor pass keeps the owner edges and adds declared edges
    only. *)
Lemma resolvedNodes_spec :
  static <$> h = sh ∧ noEmptyEntries h
  ∧ (∀ q d r, r ∈ labels h1 q d → r ∈ labels h q d)
  ∧ (∀ q d r, r ∈ labels h q d →
       ownerEdge byUID sh q d r ∨ extractorEdge E byUID byKey sh q d r).
Proof.
  destruct ownerPass_spec as (Hsh1 & Hne1 & Hl1).
  destruct (addsWithin_populateRelationships ord byUID byKey sh
              byUID_valid byKey_valid static_nodes E h1 Hsh1)
    as (Hsh2 & Hne2 & Hl2).
  unfold resolvedNodes. split_and!; [done|auto|..].
  - intros q d r. apply Hl2.
  - intros q d r Hr. apply Hl2 in Hr as [Hr|Hr]; [|by right].
    left. by apply Hl1.
Qed.

Lemma resolvedNodes_exact :
  readsStaticFields E →
  ∀ q d r, r ∈ labels h q d
    ↔ ownerEdge byUID sh q d r ∨ extractorEdge E byUID byKey sh q d r.
Proof.
  intros Hpure. destruct ownerPass_spec as (Hsh1 & Hne1 & Hl1).
  destruct (adds_populateRelationships ord byUID byKey sh
              byUID_valid byKey_valid static_nodes E Hpure h1 Hsh1)
    as (Hsh2 & Hne2 & Hl2).
  intros q d r. unfold resolvedNodes. by rewrite Hl2, Hl1.
Qed.

Lemma resolvedNodes_lookup p node :
  h !! p = Some node → ∃ o, objects !! p = Some o ∧ static node = nodeOf o.
Proof.
  intros Hp. destruct resolvedNodes_spec as (Hsh & _).
  apply (static_lookup _ _ _ _ Hsh) in Hp. by apply nodes_lookup in Hp.
Qed.

Lemma resolvedNodes_lookup_inv p o :
  objects !! p = Some o → ∃ node, h !! p = Some node ∧ static node = nodeOf o.
Proof.
  intros Hp. destruct resolvedNodes_spec as (Hsh & _).
  apply (static_lookup_inv _ _ _ _ Hsh). apply nodes_lookup. by exists o.
Qed.

Lemma resolvedNodes_is_Some k p : byUID !! k = Some p → is_Some (h !! p).
Proof.
  intros Hk%byUID_valid. apply lookup_lt_is_Some.
  destruct resolvedNodes_spec as (Hsh & _).
  by rewrite (static_length _ _ Hsh).
Qed.

(** Every edge leads to the identifier of an input object. *)
Lemma ownerEdge_target q d r :
  ownerEdge byUID sh q d r → ∃ o, o ∈ objects ∧ d = GetUID o.
Proof.
  intros (k & p & nd & ref & _ & (o & Ho & ->)%nodes_lookup & -> & _).
  exists o. split; [by eapply list_elem_of_lookup_2|done].
Qed.

Lemma extractorEdge_target q d r :
  extractorEdge E byUID byKey sh q d r → ∃ o, o ∈ objects ∧ d = GetUID o.
Proof.
  assert (∀ n nn, sh !! n = Some nn → ∃ o, o ∈ objects ∧ UID nn = GetUID o)
    as Hnode.
  { intros n nn (o & Ho & ->)%nodes_lookup. exists o.
    split; [by eapply list_elem_of_lookup_2|done]. }
  intros (k & p & nd & rmap & _ & _ & _ & nd' & Hnd' & Hcases).
  destruct Hcases as [Hc|[Hc|[Hc|[Hc|[Hc|Hc]]]]].
  - destruct Hc as (? & ? & _ & _ & _ & ->). by eapply Hnode.
  - destruct Hc as (? & ? & n & nn & _ & _ & _ & Hnn & _ & ->).
    by eapply Hnode.
  - destruct Hc as (? & ? & ? & _ & _ & _ & _ & ->). by eapply Hnode.
  - destruct Hc as (? & ? & ? & n & nn & _ & _ & _ & _ & Hnn & _ & ->).
    by eapply Hnode.
  - destruct Hc as (? & ? & _ & _ & _ & ->). by eapply Hnode.
  - destruct Hc as (? & ? & n & nn & _ & _ & _ & Hnn & _ & ->).
    by eapply Hnode.
Qed.

(** No adjacency entry dangles: its key is the identifier of an input
    object, which the index resolves to a node. *)
Lemma Dependents_resolve q node d :
  h !! q = Some node → d ∈ dom (Dependents node) →
  (∃ o, o ∈ objects ∧ d = GetUID o)
  ∧ ∃ p node', byUID !! d = Some p ∧ h !! p = Some node'.
Proof.
  intros Hq Hd. destruct resolvedNodes_spec as (Hsh & Hne & _ & Hup).
  apply (dom_Dependents_labels _ _ _ _ Hne Hq) in Hd as [r Hr].
  assert (∃ o, o ∈ objects ∧ d = GetUID o) as (o & Ho & ->).
  { apply Hup in Hr as [Hr|Hr];
      [by eapply ownerEdge_target|by eapply extractorEdge_target]. }
  split; [by exists o|].
  destruct (GetUID_indexed objects o Ho) as [p Hp].
  destruct (resolvedNodes_is_Some _ _ Hp) as [node' Hnode'].
  by exists p, node'.
Qed.

Lemma Resolves_functional root nm nm' :
  Resolves ord E objects root nm → Resolves ord E objects root nm' →
  nm = nm'.
Proof.
  intros [f1 H1] [f2 H2].
  specialize (H1 (f1 `max` f2)). specialize (H2 (f1 `max` f2)).
  rewrite H1 in H2 by lia. injection H2; [done|lia].
Qed.

Lemma ResolveDependents_eq fuel root :
  ResolveDependents ord E fuel objects root
  = (λ nm, (nm, h)) <$>
      traverse ord byUID fuel h (initialTraversal byUID root).
Proof.
  unfold ResolveDependents. simpl.
  by destruct (traverse ord byUID fuel h (initialTraversal byUID root)).
Qed.

(** A result computed with some bound is the result of the call. *)
Lemma Resolves_intro fuel root nm h' :
  ResolveDependents ord E fuel objects root = Some (nm, h') →
  Resolves ord E objects root nm.
Proof.
  rewrite ResolveDependents_eq. intros Hrun. exists fuel. intros fuel' Hle.
  rewrite ResolveDependents_eq.
  destruct (traverse ord byUID fuel h (initialTraversal byUID root))
    as [nm0|] eqn:Hnm0; [|done].
  injection Hrun as -> _.
  by rewrite (traverse_mono _ _ _ _ _ _ _ Hle Hnm0).
Qed.

(** [ResolveDependents] returns, and its map holds exactly the
    identifiers reachable from the root, each with the node the index
    resolves it to. *)
Lemma Resolves_spec root :
  ∃ nm,
    Resolves ord E objects root nm
    ∧ (∀ u v, nm !! u = Some v → v = byUID !! u ∧ reachable byUID h root u)
    ∧ (∀ u d, u ∈ dom nm → dependentOf byUID h u d → d ∈ dom nm)
    ∧ (∀ p, byUID !! root = Some p → nm !! root = Some (Some p))
    ∧ (byUID !! root = None → nm = ∅).
Proof.
  destruct (traverse_terminates ord byUID h root _
              (traversalInv_initial byUID h root))
    as (fuel & nm & Hrun & Hsound & Hclosed & Hdom).
  exists nm. split_and!; [|done..| |].
  - exists fuel. intros fuel' Hle. rewrite ResolveDependents_eq.
    by rewrite (traverse_mono _ _ _ _ _ _ _ Hle Hrun).
  - intros p Hp. unfold initialTraversal in Hdom. rewrite Hp in Hdom.
    simpl in Hdom. rewrite dom_singleton_L in Hdom.
    assert (root ∈ dom nm) as [v Hv]%elem_of_dom by set_solver.
    destruct (Hsound _ _ Hv) as [-> _]. by rewrite Hv, Hp.
  - intros Hnone. unfold initialTraversal in Hrun. rewrite Hnone in Hrun.
    destruct fuel as [|fuel]; [done|]. simpl in Hrun. by injection Hrun.
Qed.
End Resolve.

(** ** The resolver's contract *)

Section Contract.
Context `{LabelsSelector Sel} `{Unstructured U}.
Context (ord : RangeOrder) (E : Extractors Sel U).
Implicit Types (objects : list U) (root u d : types_UID) (p q : nat).

(** A key of the result other than the root is the identifier of an
    input object; every key resolves to a node. *)
Lemma reachable_resolves objects root u :
  reachable (globalMapByUID (buildIndex objects))
            (resolvedNodes ord E objects) root u →
  u = root
  ∨ ((∃ o, o ∈ objects ∧ u = GetUID o)
     ∧ ∃ q node, globalMapByUID (buildIndex objects) !! u = Some q
                 ∧ resolvedNodes ord E objects !! q = Some node).
Proof.
  intros [->|(y & _ & (p & n & _ & Hn & Hd))]%rtc_inv_r; [by left|].
  right. by eapply Dependents_resolve.
Qed.

Lemma Resolves_reachable objects root p :
  globalMapByUID (buildIndex objects) !! root = Some p →
  ∃ nm, Resolves ord E objects root nm
    ∧ nm !! root = Some (Some p)
    ∧ (∀ u, u ∈ dom nm
            ↔ reachable (globalMapByUID (buildIndex objects))
                        (resolvedNodes ord E objects) root u)
    ∧ (∀ u, u ∈ dom nm →
         ∃ q node, nm !! u = Some (Some q)
           ∧ globalMapByUID (buildIndex objects) !! u = Some q
           ∧ resolvedNodes ord E objects !! q = Some node).
Proof.
  intros Hroot.
  destruct (Resolves_spec ord E objects root)
    as (nm & Hres & Hsound & Hclosed & Hin & _).
  specialize (Hin _ Hroot).
  exists nm. split_and!; [done..| |].
  - intros u. split.
    + intros [v Hv]%elem_of_dom. by apply Hsound in Hv as [_ ?].
    + revert u. apply (rtc_ind_r (λ u, u ∈ dom nm) root).
      * apply elem_of_dom. by eexists.
      * intros y z _ Hyz Hy. by eapply Hclosed.
  - intros u [v Hv]%elem_of_dom. destruct (Hsound _ _ Hv) as [-> Hreach].
    apply reachable_resolves in Hreach as [->|[_ (q & node & Hq & Hnode)]].
    + destruct (resolvedNodes_is_Some ord E objects _ _ Hroot) as [node ?].
      exists p, node. by rewrite Hv, Hroot.
    + exists q, node. by rewrite Hv, Hq.
Qed.

(** C1: when the root identifier resolves in the by-identifier index,
    [ResolveDependents] returns a map whose keys are exactly the
    identifiers reachable from the root along [Dependents] edges (the
    root included), each mapped to the node the index resolves it to;
    and the logged number of dependents, the size of the map minus one,
    counts the keys other than the root. *)
Theorem ResolveDependents_reachable objects root p :
  globalMapByUID (buildIndex objects) !! root = Some p →
  ∃ nm, Resolves ord E objects root nm
    ∧ nm !! root = Some (Some p)
    ∧ (∀ u, u ∈ dom nm
            ↔ reachable (globalMapByUID (buildIndex objects))
                        (resolvedNodes ord E objects) root u)
    ∧ (∀ u, u ∈ dom nm →
         ∃ q node, nm !! u = Some (Some q)
           ∧ globalMapByUID (buildIndex objects) !! u = Some q
           ∧ resolvedNodes ord E objects !! q = Some node)
    ∧ resolvedDependentsCount nm = Z.of_nat (size (dom nm ∖ {[root]})).
Proof.
  intros Hroot.
  destruct (Resolves_reachable objects root p Hroot)
    as (nm & Hres & Hin & Hdom & Hnodes).
  exists nm. split_and!; [done..|].
  unfold resolvedDependentsCount.
  assert (root ∈ dom nm) as Hr by (apply elem_of_dom; by eexists).
  rewrite size_difference by set_solver.
  rewrite size_singleton, size_dom.
  assert (size nm ≠ 0); [|lia].
  rewrite <-(size_dom (D := gset string)). apply size_non_empty_iff.
  set_solver.
Qed.

(** C7, amended: when the root identifier is no key of the
    by-identifier index, that is, it is neither the identifier of an
    input object nor the name or hostname label of a host among them (in
    particular when the collection is empty), [ResolveDependents]
    returns the empty map, already at the first iteration of its loop. *)
Theorem ResolveDependents_unknown_root objects root :
  Forall (λ o, root ∉ indexKeys o) objects →
  Resolves ord E objects root ∅
  ∧ ∀ fuel, ResolveDependents ord E (S fuel) objects root
            = Some (∅, resolvedNodes ord E objects).
Proof.
  intros Hnone.
  assert (globalMapByUID (buildIndex objects) !! root = None) as Hroot.
  { apply globalMapByUID_lookup_None. by apply Forall_forall. }
  assert (∀ fuel, ResolveDependents ord E (S fuel) objects root
                  = Some (∅, resolvedNodes ord E objects)) as Hrun.
  { intros fuel. rewrite ResolveDependents_eq. unfold initialTraversal.
    by rewrite Hroot. }
  split; [|done]. exists 1. intros [|fuel'] Hle; [lia|]. apply Hrun.
Qed.

(** C4, amended: every key of the returned map is a key under which the
    index builder entered some input object (its identifier or, for a
    host, its name or hostname label), and every key other than the root
    is the identifier of an input object. *)
Theorem ResolveDependents_keys objects root :
  ∃ nm, Resolves ord E objects root nm
    ∧ ∀ u, u ∈ dom nm →
        (∃ o, o ∈ objects ∧ u ∈ indexKeys o)
        ∧ (u ≠ root → ∃ o, o ∈ objects ∧ u = GetUID o).
Proof.
  destruct (Resolves_spec ord E objects root)
    as (nm & Hres & Hsound & _ & _ & Hempty).
  exists nm. split; [done|]. intros u [v Hv]%elem_of_dom.
  destruct (Hsound _ _ Hv) as [-> Hreach].
  apply reachable_resolves in Hreach as [->|[(o & Ho & ->) _]].
  - split; [|done].
    destruct (globalMapByUID (buildIndex objects) !! root) as [p|] eqn:Hp.
    + apply globalMapByUID_lookup in Hp as [(o & Ho & Hk) _].
      exists o. split; [by eapply list_elem_of_lookup_2|done].
    + rewrite Hempty in Hv by done. done.
  - split; [|by exists o]. exists o. split; [done|].
    apply GetUID_indexKeys.
Qed.

(** C8: in the returned map, every identifier that is a key of the
    [Dependents] of an included node is itself a key of the map, mapped
    to a non-nil node; and no node of the resolved graph has a dangling
    adjacency entry: every [Dependents] key is the identifier of an input
    object and resolves in the by-identifier index. *)
Theorem ResolveDependents_closed objects root :
  ∃ nm, Resolves ord E objects root nm
    ∧ (∀ u q node d,
         nm !! u = Some (Some q) →
         resolvedNodes ord E objects !! q = Some node →
         d ∈ dom (Dependents node) →
         ∃ q' node', nm !! d = Some (Some q')
           ∧ resolvedNodes ord E objects !! q' = Some node')
    ∧ (∀ q node d,
         resolvedNodes ord E objects !! q = Some node →
         d ∈ dom (Dependents node) →
         (∃ o, o ∈ objects ∧ d = GetUID o)
         ∧ ∃ q' node',
             globalMapByUID (buildIndex objects) !! d = Some q'
             ∧ resolvedNodes ord E objects !! q' = Some node').
Proof.
  destruct (Resolves_spec ord E objects root)
    as (nm & Hres & Hsound & Hclosed & _).
  exists nm. split_and!; [done| |].
  - intros u q node d Hu Hq Hd.
    destruct (Hsound _ _ Hu) as [Hbu _].
    assert (d ∈ dom nm) as [v Hv]%elem_of_dom.
    { apply (Hclosed u); [apply elem_of_dom; by eexists|].
      by exists q, node. }
    destruct (Hsound _ _ Hv) as [-> _].
    destruct (Dependents_resolve ord E objects _ _ _ Hq Hd)
      as [_ (q' & node' & Hq' & Hnode')].
    exists q', node'. by rewrite Hv, Hq'.
  - intros q node d. apply Dependents_resolve.
Qed.

(** Last write wins, on the input: a key under which the object at
    position [i] is entered, and no later object, resolves to the node of
    that object. *)
Lemma globalMapByUID_last objects i o k :
  objects !! i = Some o → k ∈ indexKeys o →
  Forall (λ o', k ∉ indexKeys o') (drop (S i) objects) →
  globalMapByUID (buildIndex objects) !! k = Some i.
Proof.
  intros Hi Hk Hlater. apply globalMapByUID_lookup. split; [by exists o|].
  intros j o' Hj Hk'. destruct (decide (j ≤ i)) as [|Hgt]; [done|].
  exfalso. rewrite Forall_forall in Hlater. apply (Hlater o'); [|done].
  apply list_elem_of_lookup. exists (j - S i). rewrite lookup_drop.
  rewrite <-Hj. f_equal. lia.
Qed.

(** C10, amended: for a host object (empty group, kind "Node") of the
    input and an alias of it, its name or its hostname label, under which
    no later object of the input is entered in the index (the index is
    last-write-wins), [ResolveDependents] with the alias as root returns
    a non-empty map that holds the node of that object under the alias
    and every identifier reachable from it, with its node. *)
Theorem ResolveDependents_host_alias objects i o alias :
  objects !! i = Some o → isHost o →
  alias = GetName o ∨ GetLabels o !! "kubernetes.io/hostname" = Some alias →
  Forall (λ o', alias ∉ indexKeys o') (drop (S i) objects) →
  ∃ nm, Resolves ord E objects alias nm
    ∧ nm !! alias = Some (Some i)
    ∧ (∃ node, resolvedNodes ord E objects !! i = Some node
               ∧ node_Unstructured node = o)
    ∧ ∀ u, reachable (globalMapByUID (buildIndex objects))
                     (resolvedNodes ord E objects) alias u →
           ∃ q node, nm !! u = Some (Some q)
             ∧ globalMapByUID (buildIndex objects) !! u = Some q
             ∧ resolvedNodes ord E objects !! q = Some node.
Proof.
  intros Hi Hhost Halias Hlater.
  assert (alias ∈ indexKeys o) as Hk.
  { unfold indexKeys. rewrite decide_True by done.
    destruct Halias as [-> | ->]; set_solver. }
  pose proof (globalMapByUID_last _ _ _ _ Hi Hk Hlater) as Hroot.
  destruct (Resolves_reachable objects alias i Hroot)
    as (nm & Hres & Hin & Hdom & Hnodes).
  exists nm. split_and!; [done..| |].
  - destruct (resolvedNodes_lookup_inv ord E objects _ _ Hi)
      as (node & Hnode & Hst).
    exists node. split; [done|].
    by apply (f_equal node_Unstructured) in Hst.
  - intros u Hu. by apply Hnodes, Hdom.
Qed.

(** The owner references of an indexed node are recorded on the nodes
    they resolve to. *)
Lemma ownerEdge_labels objects k p o ref q r :
  globalMapByUID (buildIndex objects) !! k = Some p →
  objects !! p = Some o → ref ∈ GetOwnerReferences o →
  globalMapByUID (buildIndex objects) !! or_UID ref = Some q →
  r = RelationshipOwnerRef
  ∨ (r = RelationshipControllerRef ∧ or_Controller ref = Some true) →
  r ∈ labels (ownerNodes ord objects) q (GetUID o)
  ∧ r ∈ labels (resolvedNodes ord E objects) q (GetUID o).
Proof.
  intros Hk Hp Href Hq Hr.
  destruct (ownerPass_spec ord objects) as (_ & _ & Hl1).
  destruct (resolvedNodes_spec ord E objects) as (_ & _ & Hmono & _).
  assert (r ∈ labels (ownerNodes ord objects) q (GetUID o)) as Hin.
  { apply Hl1. exists k, p, (nodeOf o), ref. split_and!; try done.
    apply nodes_lookup. by exists o. }
  split; [done|by apply Hmono].
Qed.

Lemma labels_dependentOf objects u q d r :
  globalMapByUID (buildIndex objects) !! u = Some q →
  r ∈ labels (resolvedNodes ord E objects) q d →
  dependentOf (globalMapByUID (buildIndex objects))
              (resolvedNodes ord E objects) u d.
Proof.
  intros Hu Hr.
  destruct (resolvedNodes_is_Some ord E objects _ _ Hu) as [node Hnode].
  exists q, node. split_and!; [done..|].
  destruct (resolvedNodes_spec ord E objects) as (_ & Hne & _).
  apply (dom_Dependents_labels _ _ _ _ Hne Hnode). by exists r.
Qed.

(** C2, amended: when two objects A and B of the input, each held by
    the index under its own identifier, name each other's identifier in
    their owner references, [ResolveDependents] with A's identifier
    returns (its loop terminates) a map that holds the nodes of A and B;
    when the input has no other object, it holds exactly these two. *)
Theorem ResolveDependents_cycle objects iA iB A B :
  objects !! iA = Some A → objects !! iB = Some B → iA ≠ iB →
  globalMapByUID (buildIndex objects) !! GetUID A = Some iA →
  globalMapByUID (buildIndex objects) !! GetUID B = Some iB →
  GetUID B ∈ or_UID <$> GetOwnerReferences A →
  GetUID A ∈ or_UID <$> GetOwnerReferences B →
  ∃ nm nodeA nodeB, Resolves ord E objects (GetUID A) nm
    ∧ nm !! GetUID A = Some (Some iA)
    ∧ nm !! GetUID B = Some (Some iB)
    ∧ resolvedNodes ord E objects !! iA = Some nodeA
    ∧ node_Unstructured nodeA = A
    ∧ resolvedNodes ord E objects !! iB = Some nodeB
    ∧ node_Unstructured nodeB = B
    ∧ (length objects = 2 → dom nm = {[GetUID A; GetUID B]}).
Proof.
  intros HA HB Hne HiA HiB HAB HBA.
  destruct (resolvedNodes_lookup_inv ord E objects _ _ HA)
    as (nodeA & HnodeA & HstA).
  destruct (resolvedNodes_lookup_inv ord E objects _ _ HB)
    as (nodeB & HnodeB & HstB).
  apply (f_equal node_Unstructured) in HstA, HstB. simpl in HstA, HstB.
  destruct (Resolves_reachable objects (GetUID A) iA HiA)
    as (nm & Hres & Hin & Hdom & Hnodes).
  assert (GetUID B ∈ dom nm) as HBin.
  { apply Hdom. apply rtc_once.
    apply list_elem_of_fmap in HBA as (ref & Href & Hin').
    apply (labels_dependentOf objects _ iA _ RelationshipOwnerRef); [done|].
    eapply (ownerEdge_labels objects (GetUID B) iB B ref); try done.
    - by rewrite <-Href.
    - by left. }
  exists nm, nodeA, nodeB. split_and!; [done|done| |done..|].
  - destruct (Hnodes _ HBin) as (q & node & Hq & Hq' & _). congruence.
  - intros Hlen. apply set_eq. intros u. split.
    + intros Hu. apply Hdom in Hu.
      apply reachable_resolves in Hu as [->|[(o & Ho & ->) _]];
        [set_solver|].
      apply list_elem_of_lookup in Ho as [j Hj].
      pose proof (lookup_lt_Some _ _ _ Hj) as Hjlt.
      pose proof (lookup_lt_Some _ _ _ HA) as HAlt.
      pose proof (lookup_lt_Some _ _ _ HB) as HBlt.
      assert (j = iA ∨ j = iB) as [->| ->] by lia.
      * rewrite HA in Hj. injection Hj as <-. set_solver.
      * rewrite HB in Hj. injection Hj as <-. set_solver.
    + intros [->%elem_of_singleton| ->%elem_of_singleton]%elem_of_union;
        [apply elem_of_dom; by eexists|done].
Qed.

(** C3, amended: let A and B be input objects, each held by the index
    under its own identifier, and let an owner reference of A name B's
    identifier.  After resolution B's [Dependents] entry for A contains
    "OwnerRef", and "ControllerRef" as well when the reference has
    controller=true.  When A's identifier is unique in the input and no
    owner reference of A that resolves to B has controller=true, the
    entry is exactly {"OwnerRef"} after the owner-reference pass, and
    every other label it holds after resolution was declared by an
    extractor.  The owner-reference pass records an edge only for a
    reference whose identifier resolves in the index, and resolution
    returns for every root. *)
Theorem ownerReference_labels objects iA iB A B ref :
  objects !! iA = Some A → objects !! iB = Some B →
  globalMapByUID (buildIndex objects) !! GetUID A = Some iA →
  globalMapByUID (buildIndex objects) !! GetUID B = Some iB →
  ref ∈ GetOwnerReferences A → or_UID ref = GetUID B →
  RelationshipOwnerRef ∈ labels (resolvedNodes ord E objects) iB (GetUID A)
  ∧ (or_Controller ref = Some true →
     RelationshipControllerRef
       ∈ labels (resolvedNodes ord E objects) iB (GetUID A))
  ∧ ((∀ j o, objects !! j = Some o → GetUID o = GetUID A → j = iA) →
     (∀ ref', ref' ∈ GetOwnerReferences A →
        globalMapByUID (buildIndex objects) !! or_UID ref' = Some iB →
        or_Controller ref' ≠ Some true) →
     labels (ownerNodes ord objects) iB (GetUID A) = {[RelationshipOwnerRef]}
     ∧ ∀ r, r ∈ labels (resolvedNodes ord E objects) iB (GetUID A) →
         r = RelationshipOwnerRef
         ∨ extractorEdge E (globalMapByUID (buildIndex objects))
             (globalMapByKey (buildIndex objects))
             (nodes (buildIndex objects)) iB (GetUID A) r)
  ∧ (∀ q d r, r ∈ labels (ownerNodes ord objects) q d
       ↔ ownerEdge (globalMapByUID (buildIndex objects))
           (nodes (buildIndex objects)) q d r)
  ∧ ∀ root, ∃ nm, Resolves ord E objects root nm.
Proof.
  intros HA HB HiA HiB Href Hname.
  assert (globalMapByUID (buildIndex objects) !! or_UID ref = Some iB)
    as Hres by by rewrite Hname.
  destruct (ownerPass_spec ord objects) as (_ & _ & Hl1).
  destruct (resolvedNodes_spec ord E objects) as (_ & _ & _ & Hup).
  split_and!.
  - eapply (ownerEdge_labels objects (GetUID A) iA A ref); try done.
    by left.
  - intros Hctl.
    eapply (ownerEdge_labels objects (GetUID A) iA A ref); try done.
    by right.
  - intros Huniq Hnoctl.
    assert (∀ r, ownerEdge (globalMapByUID (buildIndex objects))
                   (nodes (buildIndex objects)) iB (GetUID A) r →
                 r = RelationshipOwnerRef) as Honly.
    { intros r (k & p & nd & ref' & Hk & Hnd & Hd & Hin & Hq & Hr).
      destruct Hr as [Hr|[_ Hctl]]; [done|]. exfalso.
      apply nodes_lookup in Hnd as (o & Ho & ->).
      assert (p = iA) as -> by (by eapply Huniq).
      rewrite HA in Ho. injection Ho as <-. by eapply Hnoctl. }
    split.
    + apply set_eq. intros r. rewrite Hl1, elem_of_singleton. split.
      * apply Honly.
      * intros ->. exists (GetUID A), iA, (nodeOf A), ref.
        split_and!; try done; [|by left]. apply nodes_lookup. by exists A.
    + intros r Hr. apply Hup in Hr as [Hr|Hr]; [left|by right].
      by apply Honly.
  - done.
  - intros root. destruct (Resolves_spec ord E objects root) as (nm & ? & _).
    by exists nm.
Qed.

Lemma selects_static byUID (h : list (Node U)) ols n :
  selects byUID (static <$> h) ols n ↔ selects byUID h ols n.
Proof.
  unfold selects. split.
  - intros (k & nn & Hk & Hnn & Hrest).
    apply (static_lookup_inv h) in Hnn as (n0 & Hn0 & <-); [|done].
    by exists k, n0.
  - intros (k & nn & Hk & Hnn & Hrest). exists k, (static nn).
    split_and!; [done| |apply Hrest..].
    by apply (static_lookup h).
Qed.

(** C6: merging the relationship map [rmap] of the node at [p] into a
    heap of the indexed nodes.  Every dependency declaration that
    resolves (by reference key, by identifier, or by a registered label
    selector) puts its labels on the edge from the referenced node to
    the declaring node's identifier (a reverse edge); every dependent
    declaration that resolves puts its labels on the edge from the
    declaring node to the referenced node's identifier (a forward
    edge).  No label is removed, and no label is added otherwise. *)
Theorem updateRelationships_edges objects (h : list (Node U)) p node
    (rmap : RelationshipMap Sel) :
  length h = length objects → h !! p = Some node →
  (∀ k rset n r,
     DependenciesByRef rmap !! k = Some rset →
     globalMapByKey (buildIndex objects) !! k = Some n → r ∈ rset →
     r ∈ labels (updateRelationships ord (globalMapByUID (buildIndex objects))
                   (globalMapByKey (buildIndex objects)) p rmap h)
                n (UID node))
  ∧ (∀ k rset n r,
       DependenciesByUID rmap !! k = Some rset →
       globalMapByUID (buildIndex objects) !! k = Some n → r ∈ rset →
       r ∈ labels (updateRelationships ord
                     (globalMapByUID (buildIndex objects))
                     (globalMapByKey (buildIndex objects)) p rmap h)
                  n (UID node))
  ∧ (∀ k rset ols n r,
       DependenciesByLabelSelector rmap !! k = Some rset →
       ObjectLabelSelectors rmap !! k = Some ols →
       selects (globalMapByUID (buildIndex objects)) h ols n → r ∈ rset →
       r ∈ labels (updateRelationships ord
                     (globalMapByUID (buildIndex objects))
                     (globalMapByKey (buildIndex objects)) p rmap h)
                  n (UID node))
  ∧ (∀ k rset n nn r,
       DependentsByRef rmap !! k = Some rset →
       globalMapByKey (buildIndex objects) !! k = Some n →
       h !! n = Some nn → r ∈ rset →
       r ∈ labels (updateRelationships ord
                     (globalMapByUID (buildIndex objects))
                     (globalMapByKey (buildIndex objects)) p rmap h)
                  p (UID nn))
  ∧ (∀ k rset n nn r,
       DependentsByUID rmap !! k = Some rset →
       globalMapByUID (buildIndex objects) !! k = Some n →
       h !! n = Some nn → r ∈ rset →
       r ∈ labels (updateRelationships ord
                     (globalMapByUID (buildIndex objects))
                     (globalMapByKey (buildIndex objects)) p rmap h)
                  p (UID nn))
  ∧ (∀ k rset ols n nn r,
       DependentsByLabelSelector rmap !! k = Some rset →
       ObjectLabelSelectors rmap !! k = Some ols →
       selects (globalMapByUID (buildIndex objects)) h ols n →
       h !! n = Some nn → r ∈ rset →
       r ∈ labels (updateRelationships ord
                     (globalMapByUID (buildIndex objects))
                     (globalMapByKey (buildIndex objects)) p rmap h)
                  p (UID nn))
  ∧ (∀ q d r,
       r ∈ labels h q d →
       r ∈ labels (updateRelationships ord
                     (globalMapByUID (buildIndex objects))
                     (globalMapByKey (buildIndex objects)) p rmap h) q d)
  ∧ (∀ q d r,
       r ∈ labels (updateRelationships ord
                     (globalMapByUID (buildIndex objects))
                     (globalMapByKey (buildIndex objects)) p rmap h) q d →
       r ∈ labels h q d
       ∨ declared (globalMapByUID (buildIndex objects))
           (globalMapByKey (buildIndex objects)) (static <$> h) p rmap
           q d r).
Proof.
  intros Hlen Hp.
  assert (∀ k n, globalMapByUID (buildIndex objects) !! k = Some n →
                 n < length (static <$> h)) as HvU.
  { intros k n Hk%globalMapByUID_lt. rewrite length_fmap. lia. }
  assert (∀ k n, globalMapByKey (buildIndex objects) !! k = Some n →
                 n < length (static <$> h)) as HvK.
  { intros k n Hk%globalMapByKey_lt. rewrite length_fmap. lia. }
  assert (static <$> (static <$> h) = static <$> h) as Hst.
  { rewrite <-list_fmap_compose. by apply list_fmap_ext. }
  destruct (adds_updateRelationships ord _ _ (static <$> h) HvU HvK Hst
              p rmap h eq_refl) as (_ & _ & Hl).
  pose proof (static_lookup h _ _ _ eq_refl Hp) as Hp'.
  assert (∀ q d r,
    declared (globalMapByUID (buildIndex objects))
      (globalMapByKey (buildIndex objects)) (static <$> h) p rmap q d r →
    r ∈ labels (updateRelationships ord (globalMapByUID (buildIndex objects))
                  (globalMapByKey (buildIndex objects)) p rmap h) q d)
    as Hdecl.
  { intros q d r ?. apply Hl. by right. }
  split_and!.
  - intros k rset n r Hk Hn Hr. apply Hdecl. exists (static node).
    split; [done|]. left. by exists k, rset.
  - intros k rset n r Hk Hn Hr. apply Hdecl. exists (static node).
    split; [done|]. do 4 right. left. by exists k, rset.
  - intros k rset ols n r Hk Hols Hsel%selects_static Hr. apply Hdecl.
    exists (static node). split; [done|]. do 2 right. left.
    by exists k, rset, ols.
  - intros k rset n nn r Hk Hn Hnn Hr. apply Hdecl. exists (static node).
    split; [done|]. right. left. exists k, rset, n, (static nn).
    split_and!; try done. by apply (static_lookup h).
  - intros k rset n nn r Hk Hn Hnn Hr. apply Hdecl. exists (static node).
    split; [done|]. do 5 right. exists k, rset, n, (static nn).
    split_and!; try done. by apply (static_lookup h).
  - intros k rset ols n nn r Hk Hols Hsel%selects_static Hnn Hr.
    apply Hdecl. exists (static node). split; [done|]. do 3 right. left.
    exists k, rset, ols, n, (static nn).
    split_and!; try done. by apply (static_lookup h).
  - intros q d r ?. apply Hl. by left.
  - intros q d r ?. by apply Hl.
Qed.
End Contract.


(** ** Independence of the iteration order *)

Section OrderIndependence.
Context `{LabelsSelector Sel} `{Unstructured U}.
Context (ord1 ord2 : RangeOrder) (E : Extractors Sel U).
Implicit Types (objects : list U) (root : types_UID).

Lemma ownerNodes_order objects :
  ownerNodes ord1 objects = ownerNodes ord2 objects.
Proof.
  destruct (ownerPass_spec ord1 objects) as (Hsh1 & Hne1 & Hl1).
  destruct (ownerPass_spec ord2 objects) as (Hsh2 & Hne2 & Hl2).
  apply heap_eq; [congruence|done..|].
  intros q d. apply set_eq. intros r. by rewrite Hl1, Hl2.
Qed.

Lemma resolvedNodes_order objects :
  readsStaticFields E →
  resolvedNodes ord1 E objects = resolvedNodes ord2 E objects.
Proof.
  intros Hpure.
  destruct (resolvedNodes_spec ord1 E objects) as (Hsh1 & Hne1 & _).
  destruct (resolvedNodes_spec ord2 E objects) as (Hsh2 & Hne2 & _).
  apply heap_eq; [congruence|done..|].
  intros q d. apply set_eq. intros r.
  by rewrite !resolvedNodes_exact.
Qed.

(** C9: two invocations on the same input and root return the same
    result whatever the order in which their [range] loops visit maps and
    sets, provided the extractors read the immutable fields of a node
    only: the same map, that is the same keys with the same nodes, and
    the same nodes, that is the same identity fields and the same
    [Dependents] with the same label sets. *)
Theorem ResolveDependents_order_independent objects root :
  readsStaticFields E →
  ∃ nm, Resolves ord1 E objects root nm
    ∧ Resolves ord2 E objects root nm
    ∧ resolvedNodes ord1 E objects = resolvedNodes ord2 E objects.
Proof.
  intros Hpure. pose proof (resolvedNodes_order objects Hpure) as Hh.
  destruct (Resolves_spec ord1 E objects root)
    as (nm1 & Hres1 & Hs1 & Hc1 & Hin1 & He1).
  destruct (Resolves_spec ord2 E objects root)
    as (nm2 & Hres2 & Hs2 & Hc2 & Hin2 & He2).
  exists nm1. split_and!; [done| |done].
  replace nm1 with nm2; [done|].
  destruct (globalMapByUID (buildIndex objects) !! root) as [p|] eqn:Hroot.
  2:{ by rewrite He1, He2. }
  assert (∀ (nm nm' : NodeMap) (h' : list (Node U)),
    (∀ u v, nm !! u = Some v →
       v = globalMapByUID (buildIndex objects) !! u
       ∧ reachable (globalMapByUID (buildIndex objects)) h' root u) →
    (∀ u d, u ∈ dom nm' →
       dependentOf (globalMapByUID (buildIndex objects)) h' u d →
       d ∈ dom nm') →
    nm' !! root = Some (Some p) →
    dom nm ⊆ dom nm') as Hsub.
  { intros nm nm' h' Hs Hc Hin u [v Hv]%elem_of_dom.
    destruct (Hs _ _ Hv) as [_ Hreach]. clear Hv. revert u Hreach.
    apply (rtc_ind_r (λ u, u ∈ dom nm') root).
    - apply elem_of_dom. by eexists.
    - intros y z _ Hyz Hy. by eapply Hc. }
  assert (dom nm2 = dom nm1) as Hdom.
  { apply set_eq. intros u. split.
    - apply (Hsub nm2 nm1 (resolvedNodes ord2 E objects)); [done| |auto].
      by rewrite <-Hh.
    - apply (Hsub nm1 nm2 (resolvedNodes ord1 E objects)); [done| |auto].
      by rewrite Hh. }
  apply map_eq. intros u.
  destruct (nm2 !! u) as [v2|] eqn:H2, (nm1 !! u) as [v1|] eqn:H1'.
  - destruct (Hs1 _ _ H1') as [-> _]. by destruct (Hs2 _ _ H2) as [-> _].
  - apply not_elem_of_dom in H1'. exfalso. apply H1'. rewrite <-Hdom.
    apply elem_of_dom. by eexists.
  - apply not_elem_of_dom in H2. exfalso. apply H2. rewrite Hdom.
    apply elem_of_dom. by eexists.
  - done.
Qed.
End OrderIndependence.

(** ** The contract on concrete inputs *)

(** Closed goals are settled by evaluation. *)
Ltac evaluate := vm_compute; reflexivity.

Lemma ResolveDependents_reachable_witness :
  ∃ nm, Resolves canonicalOrder noExtractors scenarioDRP "D" nm
    ∧ nm !! "D" = Some (Some 0)
    ∧ (∀ u, u ∈ dom nm
            ↔ reachable (globalMapByUID (buildIndex scenarioDRP))
                (resolvedNodes canonicalOrder noExtractors scenarioDRP)
                "D" u)
    ∧ (∀ u, u ∈ dom nm →
         ∃ q node, nm !! u = Some (Some q)
           ∧ globalMapByUID (buildIndex scenarioDRP) !! u = Some q
           ∧ resolvedNodes canonicalOrder noExtractors scenarioDRP !! q
             = Some node)
    ∧ resolvedDependentsCount nm = Z.of_nat (size (dom nm ∖ {["D"]})).
Proof.
  apply (ResolveDependents_reachable (Sel := SetSelector) canonicalOrder
           noExtractors scenarioDRP "D" 0).
  evaluate.
Defined.

(** The end-to-end scenario: from D the result is {D, R, P}, with both
    labels on the edges D→R and R→P; from P it is {P}. *)
Example scenarioDRP_from_D :
  Resolves reverseOrder noExtractors scenarioDRP "D"
           {[ "D" := Some 0; "R" := Some 1; "P" := Some 2 ]}
  ∧ labels (resolvedNodes reverseOrder noExtractors scenarioDRP) 0 "R"
    = {[ RelationshipOwnerRef; RelationshipControllerRef ]}
  ∧ labels (resolvedNodes reverseOrder noExtractors scenarioDRP) 1 "P"
    = {[ RelationshipOwnerRef; RelationshipControllerRef ]}.
Proof.
  split; [|split; evaluate].
  apply (Resolves_intro _ _ _ 10 _ _
           (resolvedNodes reverseOrder noExtractors scenarioDRP)).
  evaluate.
Qed.

Example scenarioDRP_from_P :
  Resolves canonicalOrder noExtractors scenarioDRP "P" {[ "P" := Some 2 ]}.
Proof.
  apply (Resolves_intro _ _ _ 10 _ _
           (resolvedNodes canonicalOrder noExtractors scenarioDRP)).
  evaluate.
Qed.

(** C2, as stated, fails.  In an input in which A and B own each other
    and A also owns C, the result for A holds C besides A and B.  And in
    the input of two objects that own each other, the second a host whose
    name is the identifier of the first, that identifier resolves to the
    host: the first object is never visited, and the result for the host
    holds the host alone. *)
Lemma cyclic_owners_result_differs :
  ("B" ∈ or_UID <$> GetOwnerReferences (object "A" "example.io" "Widget" "a"
                                           [ownedBy "B"])
   ∧ "A" ∈ or_UID <$> GetOwnerReferences (object "B" "example.io" "Widget" "b"
                                             [ownedBy "A"])
   ∧ ∃ nm, Resolves canonicalOrder noExtractors cycleWithDependent "A" nm
       ∧ dom nm = {[ "A"; "B"; "C" ]} ∧ dom nm ≠ {[ "A"; "B" ]})
  ∧ (GetUID <$> cycleShadowed = [ "node-1"; "u1" ]
     ∧ (map or_UID ∘ GetOwnerReferences) <$> cycleShadowed
       = [ [ "u1" ]; [ "node-1" ] ]
     ∧ Resolves canonicalOrder noExtractors cycleShadowed "u1"
                {[ "u1" := Some 1 ]}).
Proof.
  split.
  - split; [compute_done|]. split; [compute_done|].
    exists {[ "A" := Some 0; "B" := Some 1; "C" := Some 2 ]}. split_and!.
    + apply (Resolves_intro _ _ _ 10 _ _
               (resolvedNodes canonicalOrder noExtractors cycleWithDependent)).
      evaluate.
    + evaluate.
    + compute_done.
  - split_and!; [evaluate|evaluate|].
    apply (Resolves_intro _ _ _ 10 _ _
             (resolvedNodes canonicalOrder noExtractors cycleShadowed)).
    evaluate.
Qed.

Lemma ResolveDependents_cycle_witness :
  ∃ nm nodeA nodeB, Resolves canonicalOrder noExtractors cycleAB "A" nm
    ∧ nm !! "A" = Some (Some 0) ∧ nm !! "B" = Some (Some 1)
    ∧ resolvedNodes canonicalOrder noExtractors cycleAB !! 0 = Some nodeA
    ∧ node_Unstructured nodeA
      = object "A" "example.io" "Widget" "a" [ownedBy "B"]
    ∧ resolvedNodes canonicalOrder noExtractors cycleAB !! 1 = Some nodeB
    ∧ node_Unstructured nodeB
      = object "B" "example.io" "Widget" "b" [ownedBy "A"]
    ∧ (length cycleAB = 2 → dom nm = {[ "A"; "B" ]}).
Proof.
  refine (ResolveDependents_cycle canonicalOrder noExtractors cycleAB 0 1
            (object "A" "example.io" "Widget" "a" [ownedBy "B"])
            (object "B" "example.io" "Widget" "b" [ownedBy "A"])
            _ _ _ _ _ _ _);
    [evaluate|evaluate|lia|evaluate|evaluate
    |compute_done|compute_done].
Defined.

(** C3, as stated, fails.  Of two objects with the same identifier "a"
    the index holds the later one, so the owner reference of the earlier
    one, which names "b" with controller=true, is never visited, and the
    node of "b" has no entry for "a".  And a pod that names its host in an
    owner reference without controller flag, and for which the pod
    extractor declares the host as a dependency, has both "OwnerRef" and
    the extractor's label on the host's entry. *)
Lemma owner_entry_differs :
  (duplicateIdentifier !! 0
   = Some (object "a" "apps" "ReplicaSet" "rs-1" [controlledBy "b"])
   ∧ GetUID <$> duplicateIdentifier !! 2 = Some "b"
   ∧ labels (resolvedNodes canonicalOrder noExtractors duplicateIdentifier)
            2 "a" = ∅)
  ∧ (GetUID <$> mirrorPod = [ "N"; "P" ]
     ∧ GetOwnerReferences <$> mirrorPod !! 1 = Some [ mkOwnerReference "N" None ]
     ∧ labels (resolvedNodes canonicalOrder exampleExtractors mirrorPod) 0 "P"
       = {[ RelationshipOwnerRef; "PodNode" ]}
     ∧ labels (resolvedNodes canonicalOrder exampleExtractors mirrorPod) 0 "P"
       ≠ {[ RelationshipOwnerRef ]}).
Proof.
  split; split_and!; [evaluate|evaluate|evaluate|evaluate|evaluate|evaluate|].
  compute_done.
Qed.

Lemma ownerReference_labels_witness :
  RelationshipOwnerRef
    ∈ labels (resolvedNodes canonicalOrder exampleExtractors scenarioDRP) 0 "R"
  ∧ RelationshipControllerRef
      ∈ labels (resolvedNodes canonicalOrder exampleExtractors scenarioDRP)
               0 "R".
Proof.
  destruct (ownerReference_labels canonicalOrder exampleExtractors
              scenarioDRP 1 0
              (object "R" "apps" "ReplicaSet" "r" [controlledBy "D"])
              (object "D" "apps" "Deployment" "d" [])
              (controlledBy "D"))
    as (Howner & Hcontroller & _);
    [evaluate|evaluate|evaluate|evaluate|constructor
    |evaluate|].
  split; [exact Howner|apply Hcontroller; evaluate].
Defined.

(** C4, as stated, fails: resolving a host by its name returns a map
    whose key is that name, the identifier of no input object. *)
Lemma ResolveDependents_alias_key :
  Resolves canonicalOrder noExtractors hostOnly "node-1"
           {[ "node-1" := Some 0 ]}
  ∧ Forall (λ o, GetUID o ≠ "node-1") hostOnly.
Proof.
  split; [|compute_done].
  apply (Resolves_intro _ _ _ 10 _ _
           (resolvedNodes canonicalOrder noExtractors hostOnly)).
  evaluate.
Qed.

(** C7, as stated, fails: a root that is the identifier of no input
    object, but the hostname label of a host, gives a map of one entry. *)
Lemma ResolveDependents_alias_root :
  Forall (λ o, GetUID o ≠ "host-1") labelledHost
  ∧ ∃ nm, Resolves canonicalOrder noExtractors labelledHost "host-1" nm
      ∧ size nm = 1.
Proof.
  split; [compute_done|]. exists {[ "host-1" := Some 0 ]}. split.
  - apply (Resolves_intro _ _ _ 10 _ _
             (resolvedNodes canonicalOrder noExtractors labelledHost)).
    evaluate.
  - evaluate.
Qed.

Lemma ResolveDependents_unknown_root_witness :
  Resolves canonicalOrder noExtractors scenarioDRP "d" ∅
  ∧ ∀ fuel, ResolveDependents canonicalOrder noExtractors (S fuel)
              scenarioDRP "d"
            = Some (∅, resolvedNodes canonicalOrder noExtractors scenarioDRP).
Proof.
  apply (ResolveDependents_unknown_root canonicalOrder noExtractors
           scenarioDRP "d").
  compute_done.
Defined.

(** C10, as stated, fails: host "b" owns the pod P, and the later host "a"
    has the hostname label "b".  No object has the identifier "b", yet the
    root "b" resolves to the node of host "a": the result holds neither
    the node of host "b" nor its dependent P. *)
Lemma ResolveDependents_shadowed_alias :
  shadowedHost !! 0 = Some (host "u2" "b" ∅)
  ∧ isHost (host "u2" "b" ∅) ∧ GetName (host "u2" "b" ∅) = "b"
  ∧ Forall (λ o, GetUID o ≠ "b") shadowedHost
  ∧ labels (resolvedNodes canonicalOrder noExtractors shadowedHost) 0 "P"
    = {[ RelationshipOwnerRef ]}
  ∧ Resolves canonicalOrder noExtractors shadowedHost "b" {[ "b" := Some 2 ]}.
Proof.
  split_and!; [evaluate|by split|evaluate|compute_done|evaluate|].
  apply (Resolves_intro _ _ _ 10 _ _
           (resolvedNodes canonicalOrder noExtractors shadowedHost)).
  evaluate.
Qed.

Lemma ResolveDependents_host_alias_witness :
  ∃ nm, Resolves canonicalOrder noExtractors labelledHost "host-1" nm
    ∧ nm !! "host-1" = Some (Some 0)
    ∧ (∃ node,
         resolvedNodes canonicalOrder noExtractors labelledHost !! 0
         = Some node
         ∧ node_Unstructured node
           = host "u1" "node-1" {[ "kubernetes.io/hostname" := "host-1" ]})
    ∧ ∀ u, reachable (globalMapByUID (buildIndex labelledHost))
                     (resolvedNodes canonicalOrder noExtractors labelledHost)
                     "host-1" u →
           ∃ q node, nm !! u = Some (Some q)
             ∧ globalMapByUID (buildIndex labelledHost) !! u = Some q
             ∧ resolvedNodes canonicalOrder noExtractors labelledHost !! q
               = Some node.
Proof.
  apply (ResolveDependents_host_alias canonicalOrder noExtractors
           labelledHost 0
           (host "u1" "node-1" {[ "kubernetes.io/hostname" := "host-1" ]})
           "host-1");
    [evaluate|by split|right; evaluate|compute_done].
Defined.

Lemma updateRelationships_edges_witness :
  "Service"
    ∈ labels (updateRelationships canonicalOrder
                (globalMapByUID (buildIndex scenarioService))
                (globalMapByKey (buildIndex scenarioService))
                0 serviceRelationships (nodes (buildIndex scenarioService)))
             0 (UID (nodeOf webPod1)).
Proof.
  destruct (updateRelationships_edges canonicalOrder scenarioService
              (nodes (buildIndex scenarioService)) 0 (nodeOf webService)
              serviceRelationships)
    as (_ & _ & _ & _ & _ & Hselected & _); [evaluate|evaluate|].
  apply (Hselected (ObjectLabelSelector_Key
                      (mkObjectLabelSelector "" "Pod" "default"
                                             [("app", "web")]))
                   {[ "Service" ]}
                   (mkObjectLabelSelector "" "Pod" "default" [("app", "web")])
                   1 (nodeOf webPod1));
    [evaluate|evaluate| |evaluate|compute_done].
  exists "P1", (nodeOf webPod1). split_and!; evaluate.
Defined.

Lemma ResolveDependents_order_independent_witness :
  ∃ nm, Resolves canonicalOrder exampleExtractors scenarioService "S" nm
    ∧ Resolves reverseOrder exampleExtractors scenarioService "S" nm
    ∧ resolvedNodes canonicalOrder exampleExtractors scenarioService
      = resolvedNodes reverseOrder exampleExtractors scenarioService.
Proof.
  apply (ResolveDependents_order_independent canonicalOrder reverseOrder
           exampleExtractors scenarioService "S").
  intros nd. reflexivity.
Defined.

(** * Further properties of the package *)

(** ** The order of Go strings, and sorted lists of relationships *)

Lemma Ascii_compare_refl (a : ascii) : Ascii.compare a a = Eq.
Proof. apply N.compare_refl. Qed.

Lemma Ascii_compare_lt_trans (a b c : ascii) :
  Ascii.compare a b = Lt → Ascii.compare b c = Lt → Ascii.compare a c = Lt.
Proof. unfold Ascii.compare. rewrite !N.compare_lt_iff. lia. Qed.

Lemma String_compare_refl (s : string) : String.compare s s = Eq.
Proof. induction s as [|a s IH]; [done|]. simpl. by rewrite Ascii_compare_refl. Qed.

Lemma String_compare_lt_trans (s1 s2 s3 : string) :
  String.compare s1 s2 = Lt → String.compare s2 s3 = Lt →
  String.compare s1 s3 = Lt.
Proof.
  revert s2 s3. induction s1 as [|a s1 IH]; intros [|b s2] [|c s3]; try done.
  simpl. destruct (Ascii.compare a b) eqn:Hab; [| |done].
  - apply Ascii.compare_eq_iff in Hab as ->.
    destruct (Ascii.compare b c); [apply IH|done..].
  - intros _. destruct (Ascii.compare b c) eqn:Hbc; [| |done].
    + apply Ascii.compare_eq_iff in Hbc as <-. by rewrite Hab.
    + by rewrite (Ascii_compare_lt_trans _ _ _ Hab Hbc).
Qed.

Lemma ltb_irrefl (s : string) : String.ltb s s = false.
Proof. unfold String.ltb. by rewrite String_compare_refl. Qed.

Lemma ltb_trans (s1 s2 s3 : string) :
  String.ltb s1 s2 = true → String.ltb s2 s3 = true → String.ltb s1 s3 = true.
Proof.
  unfold String.ltb. intros H12 H23.
  rewrite (String_compare_lt_trans s1 s2 s3); [done|..].
  - by destruct (String.compare s1 s2).
  - by destruct (String.compare s2 s3).
Qed.

Lemma ltb_asym (s1 s2 : string) :
  String.ltb s1 s2 = true → String.ltb s2 s1 = false.
Proof.
  unfold String.ltb. rewrite (String.compare_antisym s2 s1).
  by destruct (String.compare s1 s2).
Qed.

Lemma ltb_trichotomy (s1 s2 : string) :
  String.ltb s1 s2 = false → String.ltb s2 s1 = false → s1 = s2.
Proof.
  unfold String.ltb. rewrite (String.compare_antisym s2 s1).
  destruct (String.compare s1 s2) eqn:Hc; try done.
  intros _ _. by apply String.compare_eq_iff.
Qed.

(** The order "not greater than" of Go strings. *)
#[local] Instance string_le_trans :
  Transitive (λ x y : string, String.ltb y x = false).
Proof.
  intros x y z Hxy Hyz. destruct (String.ltb z x) eqn:Hzx; [|done].
  destruct (String.ltb y z) eqn:Hyz'.
  - by rewrite (ltb_trans y z x) in Hxy.
  - pose proof (ltb_trichotomy _ _ Hyz Hyz') as ->. congruence.
Qed.

#[local] Instance string_le_antisym :
  AntiSymm (=) (λ x y : string, String.ltb y x = false).
Proof. intros x y Hxy Hyx. by apply ltb_trichotomy. Qed.

#[local] Instance string_le_total :
  Total (λ x y : string, String.ltb y x = false).
Proof.
  intros x y. destruct (String.ltb y x) eqn:Hyx; [|by left].
  right. by apply ltb_asym.
Qed.

#[local] Instance string_le_dec :
  RelDecision (λ x y : string, String.ltb y x = false) :=
  λ x y, decide (String.ltb y x = false).

(** A sorter: merge sort for the order "not greater than". *)
Definition mergeSorter : Sorter string String.ltb :=
  mkSorter _ _ (merge_sort (λ x y, String.ltb y x = false))
           (merge_sort_Permutation _) (Sorted_merge_sort _).

Lemma StronglySorted_lookup_lt {A} (R : A → A → Prop) (l : list A) i j a b :
  StronglySorted R l → i < j → l !! i = Some a → l !! j = Some b → R a b.
Proof.
  intros Hl. revert i j. induction Hl as [|x l Hl IH Hx]; intros i j Hij Hi Hj.
  { done. }
  destruct j as [|j]; [lia|]. destruct i as [|i]; simpl in *.
  - injection Hi as ->. rewrite Forall_forall in Hx. apply Hx.
    by eapply list_elem_of_lookup_2.
  - apply (IH i j); [lia|done..].
Qed.

Lemma List_append_all (l acc : list string) :
  foldl (λ res key, res ++ [key]) acc l = acc ++ l.
Proof.
  revert acc. induction l as [|x l IH]; intros acc; simpl.
  - by rewrite app_nil_r.
  - by rewrite IH, <-app_assoc.
Qed.

Section SortedList.
Context (ord : RangeOrder) (sorter : Sorter string String.ltb).

Lemma List_Permutation (s : RelationshipSet) :
  RelationshipSet_List ord sorter s ≡ₚ elements s.
Proof.
  unfold RelationshipSet_List. rewrite sort_Sort_perm, List_append_all.
  simpl. apply rangeSet_perm.
Qed.

Lemma List_StronglySorted (s : RelationshipSet) :
  StronglySorted (λ x y, String.ltb x y = true) (RelationshipSet_List ord sorter s).
Proof.
  assert (NoDup (RelationshipSet_List ord sorter s)) as Hnd.
  { rewrite List_Permutation. apply NoDup_elements. }
  assert (StronglySorted (λ x y, String.ltb y x = false)
            (RelationshipSet_List ord sorter s)) as Hs.
  { apply Sorted_StronglySorted; [apply _|]. apply sort_Sort_sorted. }
  induction Hs as [|x l Hl IH Hx]; [constructor|].
  apply NoDup_cons in Hnd as [Hnin Hnd]. constructor; [by apply IH|].
  rewrite Forall_forall in Hx |- *. intros y Hy.
  destruct (String.ltb x y) eqn:Hxy; [done|]. exfalso.
  apply Hnin. by rewrite (ltb_trichotomy x y Hxy (Hx y Hy)).
Qed.

(** X1: [RelationshipSet.List] returns the relationships of the set in
    strictly increasing order of Go strings.  The list holds exactly the
    members of the set, each once; its length is the size of the set; and
    [sortableStringSlice.Less(i, j)] holds for any two of its positions
    [i < j]. *)
Theorem RelationshipSet_List_sorted (s : RelationshipSet) :
  StronglySorted (λ x y, String.ltb x y = true) (RelationshipSet_List ord sorter s)
  ∧ (∀ r, r ∈ RelationshipSet_List ord sorter s ↔ r ∈ s)
  ∧ NoDup (RelationshipSet_List ord sorter s)
  ∧ length (RelationshipSet_List ord sorter s) = size s
  ∧ (∀ i j, i < j → j < length (RelationshipSet_List ord sorter s) →
       sortableStringSlice_Less (RelationshipSet_List ord sorter s) i j
       = Some true).
Proof.
  split_and!.
  - apply List_StronglySorted.
  - intros r. by rewrite List_Permutation, elem_of_elements.
  - rewrite List_Permutation. apply NoDup_elements.
  - by rewrite List_Permutation.
  - intros i j Hij Hj. unfold sortableStringSlice_Less.
    destruct (lookup_lt_is_Some_2 (RelationshipSet_List ord sorter s) i)
      as [a Ha]; [lia|].
    destruct (lookup_lt_is_Some_2 (RelationshipSet_List ord sorter s) j)
      as [b Hb]; [done|].
    rewrite Ha, Hb. simpl. f_equal.
    by apply (StronglySorted_lookup_lt _ _ i j a b (List_StronglySorted s)).
Qed.
End SortedList.

(** X2: the result of [RelationshipSet.List] depends neither on the
    order in which [range] visits the set nor on the sorting algorithm
    behind [sort.Sort]. *)
Theorem RelationshipSet_List_unique (ord1 ord2 : RangeOrder)
    (sorter1 sorter2 : Sorter string String.ltb) (s : RelationshipSet) :
  RelationshipSet_List ord1 sorter1 s = RelationshipSet_List ord2 sorter2 s.
Proof.
  apply (Sorted_unique (λ x y, String.ltb y x = false)).
  - apply sort_Sort_sorted.
  - apply sort_Sort_sorted.
  - by rewrite !List_Permutation.
Qed.

Section NodeList.
Context {U : Type}.
Implicit Types (a b c : Node U).

(** [Node_Less] is the lexicographic order on (namespace, kind, group,
    name). *)
Lemma Node_Less_lex a b :
  Node_Less a b = true
  ↔ String.ltb (Namespace a) (Namespace b) = true
    ∨ (Namespace a = Namespace b
       ∧ (String.ltb (Kind a) (Kind b) = true
          ∨ (Kind a = Kind b
             ∧ (String.ltb (Group a) (Group b) = true
                ∨ (Group a = Group b
                   ∧ String.ltb (Name a) (Name b) = true))))).
Proof.
  assert (∀ x y : string, String.ltb x y = true → x ≠ y) as Hne.
  { intros x y Hlt ->. by rewrite ltb_irrefl in Hlt. }
  unfold Node_Less. repeat case_decide;
    repeat match goal with
           | Hs : ¬ (_ ≠ _) |- _ => apply dec_stable in Hs
           end; naive_solver.
Qed.

Lemma Node_Less_irrefl a : Node_Less a a = false.
Proof.
  unfold Node_Less. repeat case_decide; try done. apply ltb_irrefl.
Qed.

Lemma Node_Less_trans a b c :
  Node_Less a b = true → Node_Less b c = true → Node_Less a c = true.
Proof.
  rewrite !Node_Less_lex.
  intros [Hab|(Hn1 & [Hab|(Hk1 & [Hab|(Hg1 & Hab)])])]
         [Hbc|(Hn2 & [Hbc|(Hk2 & [Hbc|(Hg2 & Hbc)])])];
    rewrite ?Hn1, ?Hk1, ?Hg1 in *; rewrite <-?Hn2, <-?Hk2, <-?Hg2 in *;
    eauto 10 using ltb_trans.
Qed.

Lemma Node_Less_asym a b : Node_Less a b = true → Node_Less b a = false.
Proof.
  intros Hab. destruct (Node_Less b a) eqn:Hba; [|done].
  pose proof (Node_Less_trans _ _ _ Hab Hba) as Haa.
  by rewrite Node_Less_irrefl in Haa.
Qed.

Lemma Node_Less_total a b :
  Node_Less a b = false ∧ Node_Less b a = false
  ↔ Namespace a = Namespace b ∧ Kind a = Kind b ∧ Group a = Group b
    ∧ Name a = Name b.
Proof.
  split.
  - intros [Hab Hba].
    assert (∀ x y : string, x ≠ y →
              String.ltb x y = true ∨ String.ltb y x = true) as Htri.
    { intros x y Hxy. destruct (String.ltb x y) eqn:H1; [by left|].
      destruct (String.ltb y x) eqn:H2; [by right|].
      by destruct Hxy; apply ltb_trichotomy. }
    apply not_true_iff_false in Hab, Hba.
    rewrite Node_Less_lex in Hab, Hba.
    destruct (decide (Namespace a = Namespace b)) as [Hn|Hn];
      [|destruct (Htri _ _ Hn); naive_solver].
    destruct (decide (Kind a = Kind b)) as [Hk|Hk];
      [|destruct (Htri _ _ Hk); naive_solver].
    destruct (decide (Group a = Group b)) as [Hg|Hg];
      [|destruct (Htri _ _ Hg); naive_solver].
    destruct (decide (Name a = Name b)) as [Hm|Hm];
      [|destruct (Htri _ _ Hm); naive_solver].
    done.
  - intros (Hn & Hk & Hg & Hm). unfold Node_Less. rewrite Hn, Hk, Hg, Hm.
    repeat case_decide; try done. by rewrite ltb_irrefl.
Qed.

(** X3: [NodeList.Less] is a strict order on the positions of a list of
    non-nil pointers: no position is less than itself, two positions are
    never less than each other, and less is transitive.  It panics
    exactly when one of the indices is out of range. *)
Theorem NodeList_Less_strict_order (n : list (Node U)) :
  (∀ i, i < length n → NodeList_Less n i i = Some false)
  ∧ (∀ i j, NodeList_Less n i j = Some true → NodeList_Less n j i = Some false)
  ∧ (∀ i j k, NodeList_Less n i j = Some true →
       NodeList_Less n j k = Some true → NodeList_Less n i k = Some true)
  ∧ (∀ i j, NodeList_Less n i j = None ↔ length n ≤ i ∨ length n ≤ j).
Proof.
  unfold NodeList_Less. split_and!.
  - intros i [a Ha]%lookup_lt_is_Some. rewrite Ha. simpl.
    by rewrite Node_Less_irrefl.
  - intros i j. destruct (n !! i) as [a|], (n !! j) as [b|]; simpl; try done.
    intros [= Hab]. by rewrite (Node_Less_asym _ _ Hab).
  - intros i j k.
    destruct (n !! i) as [a|], (n !! j) as [b|], (n !! k) as [c|];
      simpl; try done.
    intros [= Hab] [= Hbc]. by rewrite (Node_Less_trans _ _ _ Hab Hbc).
  - intros i j. rewrite <-!lookup_ge_None.
    destruct (n !! i) as [a|], (n !! j) as [b|]; simpl; naive_solver.
Qed.

(** X4: two nodes of a list are left unordered by [NodeList.Less], in
    both directions, exactly when they agree on namespace, kind, group
    and name; any other two are ordered one way. *)
Theorem NodeList_Less_total (n : list (Node U)) i j a b :
  n !! i = Some a → n !! j = Some b →
  (NodeList_Less n i j = Some false ∧ NodeList_Less n j i = Some false
   ↔ Namespace a = Namespace b ∧ Kind a = Kind b ∧ Group a = Group b
     ∧ Name a = Name b).
Proof.
  intros Ha Hb. unfold NodeList_Less. rewrite Ha, Hb. simpl.
  rewrite <-Node_Less_total. split.
  - by intros [[= ->] [= ->]].
  - by intros [-> ->].
Qed.
End NodeList.

Section Swap.
Context {A : Type}.
Implicit Types (s : list A).

Lemma insert_Permutation s j a b :
  s !! j = Some b → b :: <[j := a]> s ≡ₚ a :: s.
Proof.
  revert j. induction s as [|x s IH]; intros [|j] Hj; simplify_eq/=.
  - apply perm_swap.
  - rewrite perm_swap, (IH _ Hj). apply perm_swap.
Qed.

Lemma slice_Swap_Permutation s i j s' : slice_Swap s i j = Some s' → s' ≡ₚ s.
Proof.
  unfold slice_Swap. revert i j s'.
  induction s as [|x s IH]; intros [|i] [|j] s' Hs; simplify_option_eq.
  - done.
  - by apply insert_Permutation.
  - by apply insert_Permutation.
  - constructor. apply (IH i j).
    by simplify_option_eq.
Qed.

(** X5: [Swap(i, j)], of [sortableStringSlice] and of [NodeList],
    panics exactly when an index is out of range.  Otherwise it
    exchanges the elements at [i] and [j], leaves every other position
    and the length alone, yields a permutation of the slice, and a second
    [Swap(i, j)] restores the slice. *)
Theorem slice_Swap_exchanges s i j :
  (slice_Swap s i j = None ↔ slice_Len s ≤ i ∨ slice_Len s ≤ j)
  ∧ ∀ s', slice_Swap s i j = Some s' →
      s' !! i = s !! j ∧ s' !! j = s !! i
      ∧ (∀ k, k ≠ i → k ≠ j → s' !! k = s !! k)
      ∧ slice_Len s' = slice_Len s ∧ s' ≡ₚ s
      ∧ slice_Swap s' i j = Some s.
Proof.
  unfold slice_Len. split.
  - unfold slice_Swap. rewrite <-!lookup_ge_None.
    destruct (s !! i) as [a|], (s !! j) as [b|]; simpl; naive_solver.
  - intros s' Hs. pose proof (slice_Swap_Permutation _ _ _ _ Hs) as Hperm.
    unfold slice_Swap in *.
    destruct (s !! i) as [a|] eqn:Ha; [|done].
    destruct (s !! j) as [b|] eqn:Hb; [|done]. simpl in Hs.
    injection Hs as <-.
    pose proof (lookup_lt_Some _ _ _ Ha) as Hi.
    pose proof (lookup_lt_Some _ _ _ Hb) as Hj.
    assert (<[j:=a]> (<[i:=b]> s) !! i = Some b) as Hi'.
    { destruct (decide (i = j)) as [->|Hij].
      - rewrite list_lookup_insert_eq by (by rewrite length_insert).
        congruence.
      - rewrite list_lookup_insert_ne by done.
        by rewrite list_lookup_insert_eq. }
    assert (<[j:=a]> (<[i:=b]> s) !! j = Some a) as Hj'.
    { by rewrite list_lookup_insert_eq by (by rewrite length_insert). }
    split_and!; [done|done| | |done|].
    + intros k Hki Hkj. by rewrite !list_lookup_insert_ne.
    + by rewrite !length_insert.
    + rewrite Hi', Hj'. simpl. f_equal. apply list_eq. intros k.
      destruct (decide (k = j)) as [->|Hkj].
      { rewrite list_lookup_insert_eq by (by rewrite !length_insert).
        done. }
      rewrite list_lookup_insert_ne by done.
      destruct (decide (k = i)) as [->|Hki].
      { rewrite list_lookup_insert_eq by (by rewrite !length_insert).
        done. }
      by rewrite !list_lookup_insert_ne.
Qed.
End Swap.

(** ** Relationship maps and [AddDependent] *)

Section AddToSet.
Implicit Types (m : gmap string RelationshipSet) (k : string) (r : Relationship).

Lemma addToSet_idemp k r m : addToSet k r (addToSet k r m) = addToSet k r m.
Proof.
  apply map_eq. intros k'. rewrite !lookup_addToSet.
  case_decide; [|done]. subst. rewrite decide_True by done. simpl.
  f_equal. set_solver.
Qed.

Lemma addToSet_comm k r k' r' m :
  addToSet k r (addToSet k' r' m) = addToSet k' r' (addToSet k r m).
Proof.
  apply map_eq. intros j. rewrite !lookup_addToSet.
  repeat case_decide; subst; simpl; try done; f_equal; set_solver.
Qed.

Lemma addToSet_nonempty k r m :
  (∀ j rs, m !! j = Some rs → rs ≠ ∅) →
  ∀ j rs, addToSet k r m !! j = Some rs → rs ≠ ∅.
Proof.
  intros Hm j rs. rewrite lookup_addToSet. case_decide; [|apply Hm].
  intros [= <-]. set_solver.
Qed.

Lemma dom_addToSet k r m : dom (addToSet k r m) = {[k]} ∪ dom m.
Proof.
  apply set_eq. intros j. rewrite elem_of_union, elem_of_singleton.
  rewrite !elem_of_dom, lookup_addToSet. case_decide; naive_solver.
Qed.
End AddToSet.

Section RelationshipMapLaws.
Context `{LabelsSelector Sel}.
Implicit Types (m : RelationshipMap Sel) (o : ObjectLabelSelector Sel).


End RelationshipMapLaws.

Section Built.
Context `{LabelsSelector Sel}.
Implicit Types (m : RelationshipMap Sel).

(** X8: every relationship map obtained from [newRelationshipMap] by
    calls of the add methods is well formed: it holds no empty label
    set, and every selector key with labels has its selector stored, so
    that the lookups of selectors in [updateRelationships] never miss. *)
Theorem built_wellFormed m : built m → wellFormed m.
Proof.
  induction 1 as [|k r m _ [IHne IHsel]|o r m _ [IHne IHsel]
                  |uid r m _ [IHne IHsel]|k r m _ [IHne IHsel]
                  |o r m _ [IHne IHsel]|uid r m _ [IHne IHsel]];
    (split; simpl;
     [ intros t Ht; repeat (apply elem_of_cons in Ht as [->|Ht]);
       try (intros k' rs; by rewrite lookup_empty);
       try (apply IHne; set_solver);
       try (apply addToSet_nonempty, IHne; set_solver);
       by apply not_elem_of_nil in Ht
     | try done ]).
  - intros k. rewrite !dom_empty_L. set_solver.
  - intros k. rewrite dom_addToSet, dom_insert_L. set_solver.
  - intros k. rewrite dom_addToSet, dom_insert_L. set_solver.
Qed.
End Built.

Section NodeAddDependent.
Context {U : Type}.
Implicit Types (n : Node U) (uid d : types_UID) (r : Relationship).

(** X9: [Node.AddDependent(uid, r)] adds [r] to the label set of [uid]
    (empty when [uid] was missing), leaves the other entries and all
    other fields of the node alone, is idempotent, and two calls
    commute. *)
Theorem Node_AddDependent_spec n uid uid' r r' :
  (∀ d, Dependents (Node_AddDependent uid r n) !! d
        = if decide (uid = d)
          then Some ({[r]} ∪ default ∅ (Dependents n !! uid))
          else Dependents n !! d)
  ∧ static (Node_AddDependent uid r n) = static n
  ∧ Node_AddDependent uid r (Node_AddDependent uid r n)
    = Node_AddDependent uid r n
  ∧ Node_AddDependent uid r (Node_AddDependent uid' r' n)
    = Node_AddDependent uid' r' (Node_AddDependent uid r n).
Proof.
  split_and!.
  - intros d. simpl. apply lookup_addToSet.
  - done.
  - unfold Node_AddDependent, withDependents. simpl.
    by rewrite addToSet_idemp.
  - unfold Node_AddDependent, withDependents. simpl.
    by rewrite addToSet_comm.
Qed.
End NodeAddDependent.

(** ** The two indices *)

Section IndexMore.
Context `{Unstructured U}.
Implicit Types (objects : list U) (o : U) (k : string) (i j : nat).

(** X10: the by-identifier index is last-write-wins.  A key is bound to
    position [i] exactly when object [i] is entered under it (as its
    identifier or, for a host, as its name or hostname label) and no
    later object is; it is unbound exactly when no object is entered
    under it.  The identifier of every input object is bound. *)
Theorem globalMapByUID_last_write_wins objects k :
  (∀ i, globalMapByUID (buildIndex objects) !! k = Some i
        ↔ (∃ o, objects !! i = Some o ∧ k ∈ indexKeys o)
          ∧ ∀ j o', objects !! j = Some o' → k ∈ indexKeys o' → j ≤ i)
  ∧ (globalMapByUID (buildIndex objects) !! k = None
     ↔ ∀ o, o ∈ objects → k ∉ indexKeys o)
  ∧ (∀ o, o ∈ objects →
       is_Some (globalMapByUID (buildIndex objects) !! GetUID o)).
Proof.
  split_and!.
  - intros i. apply globalMapByUID_lookup.
  - apply globalMapByUID_lookup_None.
  - apply GetUID_indexed.
Qed.

Lemma globalMapByKey_snoc objects o k :
  globalMapByKey (buildIndex (objects ++ [o])) !! k
  = if decide (referenceKey o = k) then Some (length objects)
    else globalMapByKey (buildIndex objects) !! k.
Proof.
  rewrite buildIndex_snoc. simpl. rewrite lookup_insert.
  by rewrite length_nodes_buildIndex.
Qed.

(** X11: the by-reference-key index is last-write-wins as well: a key
    is bound to position [i] exactly when it is the reference key of
    object [i] and of no later object, and unbound exactly when it is the
    reference key of no object. *)
Theorem globalMapByKey_last_write_wins objects k :
  (∀ i, globalMapByKey (buildIndex objects) !! k = Some i
        ↔ (∃ o, objects !! i = Some o ∧ referenceKey o = k)
          ∧ ∀ j o', objects !! j = Some o' → referenceKey o' = k → j ≤ i)
  ∧ (globalMapByKey (buildIndex objects) !! k = None
     ↔ ∀ o, o ∈ objects → referenceKey o ≠ k).
Proof.
  split.
  - induction objects as [|o objects IH] using rev_ind; intros i.
    { split; [done|]. by intros [(o & Ho & _) _]. }
    rewrite globalMapByKey_snoc. case_decide as Hk.
    + split.
      * intros [= <-]. split.
        -- exists o. by rewrite lookup_app_r, Nat.sub_diag by done.
        -- intros j o' Hj _. apply lookup_lt_Some in Hj.
           rewrite length_app in Hj. simpl in Hj. lia.
      * intros [(o1 & Ho1 & _) Hlast].
        pose proof (lookup_lt_Some _ _ _ Ho1) as Hlt.
        rewrite length_app in Hlt. simpl in Hlt.
        specialize (Hlast (length objects) o).
        rewrite lookup_app_r, Nat.sub_diag in Hlast by done.
        specialize (Hlast eq_refl Hk). f_equal. lia.
    + rewrite IH. split.
      * intros [(o1 & Ho1 & Hk1) Hlast]. split.
        -- exists o1. by rewrite lookup_app_l by by eapply lookup_lt_Some.
        -- intros j o' Hj Hk'.
           destruct (decide (j < length objects)) as [Hlt|Hge].
           ++ rewrite lookup_app_l in Hj by done. by eapply Hlast.
           ++ rewrite lookup_app_r in Hj by lia.
              apply list_lookup_singleton_Some in Hj as [_ <-]. done.
      * intros [(o1 & Ho1 & Hk1) Hlast].
        assert (i < length objects) as Hlt.
        { destruct (decide (i < length objects)); [done|].
          rewrite lookup_app_r in Ho1 by lia.
          apply list_lookup_singleton_Some in Ho1 as [_ <-]. done. }
        rewrite lookup_app_l in Ho1 by done. split; [by exists o1|].
        intros j o' Hj Hk'. apply (Hlast j o'); [|done].
        by rewrite lookup_app_l by by eapply lookup_lt_Some.
  - induction objects as [|o objects IH] using rev_ind.
    { split; [|done]. intros _ o Ho. by inversion Ho. }
    rewrite globalMapByKey_snoc. case_decide as Hk.
    + split; [done|]. intros Hall. exfalso. apply (Hall o); set_solver.
    + rewrite IH. set_solver.
Qed.

(** X12: when the identifiers of the input are pairwise distinct and no
    object is a host, the by-identifier index binds the identifier of
    each object to that object's own node, its keys are the identifiers
    of the input, and it has one entry per object. *)
Theorem globalMapByUID_unique_identifiers objects :
  NoDup (GetUID <$> objects) → Forall (λ o, ¬ isHost o) objects →
  (∀ i o, objects !! i = Some o →
          globalMapByUID (buildIndex objects) !! GetUID o = Some i)
  ∧ dom (globalMapByUID (buildIndex objects)) = list_to_set (GetUID <$> objects)
  ∧ size (globalMapByUID (buildIndex objects)) = length objects.
Proof.
  intros Hnd Hnohost.
  assert (∀ o k, o ∈ objects → k ∈ indexKeys o ↔ k = GetUID o) as Hkeys.
  { intros o k Ho. rewrite Forall_forall in Hnohost.
    unfold indexKeys. rewrite decide_False by by apply Hnohost.
    set_solver. }
  assert (dom (globalMapByUID (buildIndex objects))
          = list_to_set (GetUID <$> objects)) as Hdom.
  { apply set_eq. intros k. rewrite elem_of_list_to_set, list_elem_of_fmap.
    rewrite elem_of_dom. split.
    - intros [i [(o & Ho & Hk) _]%globalMapByUID_lookup].
      apply list_elem_of_lookup_2 in Ho. exists o. split; [|done].
      by apply Hkeys.
    - intros (o & -> & Ho). by apply GetUID_indexed. }
  split_and!; [|done|].
  - intros i o Hi. apply globalMapByUID_lookup. split.
    + exists o. split; [done|]. apply GetUID_indexKeys.
    + intros j o' Hj Hk. apply Hkeys in Hk; [|by eapply list_elem_of_lookup_2].
      assert (j = i); [|lia].
      apply (NoDup_lookup _ _ _ (GetUID o) Hnd);
        rewrite list_lookup_fmap; [rewrite Hj|rewrite Hi]; simpl; congruence.
  - rewrite <-(size_dom (D := gset string)), Hdom.
    rewrite size_list_to_set by done. by rewrite length_fmap.
Qed.

(** X13: when group, kind and namespace of the input hold no
    separator and no two objects share (group, kind, namespace, name),
    the by-reference-key index binds the reference key of each object to
    that object's own node. *)
Theorem globalMapByKey_distinct_coordinates objects :
  Forall (λ o, separator_free (gvk_Group (GetGroupVersionKind o)) = true
               ∧ separator_free (gvk_Kind (GetGroupVersionKind o)) = true
               ∧ separator_free (GetNamespace o) = true) objects →
  NoDup (coordinates <$> objects) →
  ∀ i o, objects !! i = Some o →
    globalMapByKey (buildIndex objects) !! referenceKey o = Some i.
Proof.
  intros Hsep Hnd i o Hi. apply globalMapByKey_last_write_wins. split.
  - by exists o.
  - intros j o' Hj Hk. rewrite Forall_forall in Hsep.
    destruct (Hsep o) as (? & ? & ?); [by eapply list_elem_of_lookup_2|].
    destruct (Hsep o') as (? & ? & ?); [by eapply list_elem_of_lookup_2|].
    unfold referenceKey, Node_GetObjectReferenceKey, ObjectReference_Key in Hk.
    simpl in Hk. apply Sprintf4_inj in Hk as (Hg & Hkd & Hns & Hnm); [|done..].
    assert (j = i); [|lia].
    apply (NoDup_lookup _ _ _ (coordinates o) Hnd);
      rewrite list_lookup_fmap; [rewrite Hj|rewrite Hi]; simpl; [|done].
    unfold coordinates. by rewrite Hg, Hkd, Hns, Hnm.
Qed.
End IndexMore.

(** ** Selectors and the outcome of the relationship passes *)

Section Selectors.
Context `{LabelsSelector Sel} `{Unstructured U}.
Context (byUID : gmap types_UID nat).
Implicit Types (h : list (Node U)) (ols : ObjectLabelSelector Sel).

Lemma resolveSelectorToNodes_omap ord h ols :
  resolveSelectorToNodes ord byUID h ols
  = omap (λ kn, nn ← h !! kn.2; if selected ols nn then Some kn.2 else None)
         (range ord byUID).
Proof.
  unfold resolveSelectorToNodes.
  set (g := λ kn : string * nat,
         nn ← h !! kn.2; if selected ols nn then Some kn.2 else None).
  set (f := λ (result : list nat) (kn : string * nat), _).
  assert (∀ l acc, foldl f acc l = acc ++ omap g l) as Hfold.
  { induction l as [|[k n] l IH]; intros acc; simpl.
    { by rewrite app_nil_r. }
    rewrite IH. unfold g at 2, selected. simpl.
    destruct (h !! n) as [nn|]; simpl; [|done].
    case_decide as Hd.
    - rewrite bool_decide_eq_true_2 by done. simpl.
      destruct (Matches _ _); [|done]. by rewrite <-app_assoc.
    - by rewrite bool_decide_eq_false_2 by done. }
  apply Hfold.
Qed.

Lemma length_omap_le {A B} (f : A → option B) (l : list A) :
  length (omap f l) ≤ length l.
Proof.
  induction l as [|x l IH]; [done|].
  change (omap f (x :: l)) with (from_option (λ y, y :: omap f l) (omap f l) (f x)).
  destruct (f x); simpl; lia.
Qed.

(** X14: [resolveSelectorToNodes] returns the nodes the selector
    selects: those bound in the by-identifier index whose group, kind and
    namespace are the selector's and whose labels it matches.  Two
    iteration orders give the same nodes up to order; the result does not
    depend on the [Dependents] of the nodes; and it has at most one
    element per key of the index. *)
Theorem resolveSelectorToNodes_selects ord1 ord2 h ols :
  (∀ n, n ∈ resolveSelectorToNodes ord1 byUID h ols ↔ selects byUID h ols n)
  ∧ resolveSelectorToNodes ord1 byUID h ols
    ≡ₚ resolveSelectorToNodes ord2 byUID h ols
  ∧ resolveSelectorToNodes ord1 byUID h ols
    = resolveSelectorToNodes ord1 byUID (static <$> h) ols
  ∧ length (resolveSelectorToNodes ord1 byUID h ols) ≤ size byUID.
Proof.
  split_and!.
  - intros n. apply elem_of_resolveSelectorToNodes.
  - rewrite !resolveSelectorToNodes_omap.
    apply omap_Permutation. by rewrite !range_perm.
  - apply resolveSelectorToNodes_static.
  - rewrite resolveSelectorToNodes_omap.
    rewrite <-length_map_to_list, <-(range_perm ord1).
    apply length_omap_le.
Qed.
End Selectors.

Section Outcome.
Context `{LabelsSelector Sel} `{Unstructured U}.
Context (ord : RangeOrder) (E : Extractors Sel U).
Implicit Types (objects : list U) (nd : Node U).

Lemma foldl_fixed {A B} (f : A → B → A) (a : A) (l : list B) :
  (∀ x, x ∈ l → f a x = a) → foldl f a l = a.
Proof.
  induction l as [|x l IH]; intros Hf; simpl; [done|].
  rewrite Hf by set_solver. apply IH. intros y Hy. apply Hf. set_solver.
Qed.

Lemma resolvedNodes_unchanged objects :
  (∀ o nd rmap, o ∈ objects → static nd = nodeOf o →
                dispatch E nd ≠ Some (inr rmap)) →
  resolvedNodes ord E objects = ownerNodes ord objects.
Proof.
  intros Hfail. unfold resolvedNodes, populateRelationships.
  apply foldl_fixed. intros [k p] _.
  destruct (ownerNodes ord objects !! p) as [node|] eqn:Hnode; [|done].
  destruct (ownerPass_spec ord objects) as (Hsh & _ & _).
  pose proof (static_lookup _ _ _ _ Hsh Hnode) as Hst.
  rewrite nodes_buildIndex, list_lookup_fmap in Hst.
  destruct (objects !! p) as [o|] eqn:Ho; [|done].
  simpl in Hst. assert (static node = nodeOf o) as Hst' by congruence.
  destruct (dispatch E node) as [[err|rmap]|] eqn:Hd; [done| |done].
  exfalso. eapply Hfail; [|apply Hst'|apply Hd].
  by eapply list_elem_of_lookup_2.
Qed.

Lemma dispatch_None nd :
  dispatch E nd = None ↔ (Group nd, Kind nd) ∉ extractorKinds.
Proof.
  destruct nd as [u uid g k ns nm ors deps]. unfold dispatch, extractorKinds.
  simpl.
  repeat match goal with
         | |- (if decide ?P then _ else _) = None ↔ _ =>
             destruct (decide P) as [[Hg ->]|?];
             [split; [done|]; intros Hnot; exfalso; apply Hnot;
              first [destruct Hg as [-> | ->] | subst g]; compute_done|]
         end.
  split; [|done]. intros _. rewrite !elem_of_cons, elem_of_nil.
  intros Hin. repeat destruct Hin as [[= Hg Hk]|Hin]; tauto.
Qed.

(** X15: failures of extractors are swallowed.  When no extractor
    returns a relationship map for a node of the input, the graph is the
    one of the owner-reference pass, and the call still returns. *)
Theorem resolvedNodes_extraction_fails objects :
  (∀ o nd rmap, o ∈ objects → static nd = nodeOf o →
                dispatch E nd ≠ Some (inr rmap)) →
  resolvedNodes ord E objects = ownerNodes ord objects
  ∧ ∀ root, ∃ nm, Resolves ord E objects root nm.
Proof.
  intros Hfail. split; [by apply resolvedNodes_unchanged|].
  intros root. destruct (Resolves_spec ord E objects root) as (nm & ? & _).
  by exists nm.
Qed.

(** X17: invariants of the graph that [ResolveDependents] builds.
    Node [i] carries the fields of object [i], so there are as many
    nodes as objects; no [Dependents] entry holds an empty label set;
    the relationship pass keeps every label of the owner-reference pass;
    and every label is an owner-reference label or one declared by an
    extractor. *)
Theorem resolvedNodes_invariants objects :
  static <$> resolvedNodes ord E objects = nodeOf <$> objects
  ∧ length (resolvedNodes ord E objects) = length objects
  ∧ noEmptyEntries (resolvedNodes ord E objects)
  ∧ (∀ q d r, r ∈ labels (ownerNodes ord objects) q d →
              r ∈ labels (resolvedNodes ord E objects) q d)
  ∧ (∀ q d r, r ∈ labels (resolvedNodes ord E objects) q d →
       ownerEdge (globalMapByUID (buildIndex objects))
                 (nodeOf <$> objects) q d r
       ∨ extractorEdge E (globalMapByUID (buildIndex objects))
                       (globalMapByKey (buildIndex objects))
                       (nodeOf <$> objects) q d r).
Proof.
  destruct (resolvedNodes_spec ord E objects) as (Hsh & Hne & Hmono & Hl).
  rewrite nodes_buildIndex in Hsh, Hl. split_and!; [done| |done..].
  by rewrite <-(length_fmap static), Hsh, length_fmap.
Qed.

(** X18: when the extractors read the immutable fields of a node
    only, the labels of the graph are exactly the owner-reference labels
    and the labels the extractors declare. *)
Theorem resolvedNodes_labels objects :
  readsStaticFields E →
  ∀ q d r, r ∈ labels (resolvedNodes ord E objects) q d
    ↔ ownerEdge (globalMapByUID (buildIndex objects))
                (nodeOf <$> objects) q d r
      ∨ extractorEdge E (globalMapByUID (buildIndex objects))
                      (globalMapByKey (buildIndex objects))
                      (nodeOf <$> objects) q d r.
Proof.
  intros Hpure q d r. rewrite <-nodes_buildIndex.
  by apply resolvedNodes_exact.
Qed.

(** X19: the result for a root holds the result for each of its
    keys: resolving from a key [d] of the map returned for [root] gives
    a submap of that map. *)
Theorem ResolveDependents_subgraph objects root d nm nm' :
  Resolves ord E objects root nm → d ∈ dom nm →
  Resolves ord E objects d nm' → nm' ⊆ nm.
Proof.
  intros Hnm Hd Hnm'.
  destruct (Resolves_spec ord E objects root)
    as (nm0 & Hres0 & Hs0 & Hc0 & Hin0 & He0).
  assert (nm0 = nm) as -> by by eapply Resolves_functional.
  destruct (Resolves_spec ord E objects d)
    as (nm1 & Hres1 & Hs1 & Hc1 & Hin1 & He1).
  assert (nm1 = nm') as -> by by eapply Resolves_functional.
  apply map_subseteq_spec. intros u v Hu.
  destruct (Hs1 _ _ Hu) as [-> Hreach].
  assert (u ∈ dom nm) as [v Hv]%elem_of_dom.
  { clear Hu. revert u Hreach.
    apply (rtc_ind_r (λ u, u ∈ dom nm) d); [done|].
    intros y z _ Hyz Hy. by eapply Hc0. }
  rewrite Hv. by destruct (Hs0 _ _ Hv) as [-> _].
Qed.
End Outcome.

Section OtherKinds.
Context `{LabelsSelector Sel} `{Unstructured U}.

(** X16: objects of kinds without a [case] in the extractor [switch]
    get owner-reference edges only.  When the input holds no object of
    one of the fifteen (group, kind) pairs of the [switch], the graph is
    the one of the owner-reference pass, whatever the extractors and the
    iteration order. *)
Theorem resolvedNodes_other_kinds (objects : list U) :
  Forall (λ o, (gvk_Group (GetGroupVersionKind o),
                gvk_Kind (GetGroupVersionKind o)) ∉ extractorKinds)
         objects →
  ∀ (ord1 ord2 : RangeOrder) (E1 E2 : Extractors Sel U),
    resolvedNodes ord1 E1 objects = resolvedNodes ord2 E2 objects
    ∧ resolvedNodes ord1 E1 objects = ownerNodes ord1 objects.
Proof.
  intros Hkinds ord1 ord2 E1 E2.
  assert (∀ ord (E : Extractors Sel U),
            resolvedNodes ord E objects = ownerNodes ord objects) as Hown.
  { intros ord E. apply resolvedNodes_unchanged. intros o nd rmap Ho Hst.
    rewrite Forall_forall in Hkinds. specialize (Hkinds o Ho).
    assert (dispatch E nd = None) as ->; [|done].
    apply dispatch_None.
    replace (Group nd) with (Group (static nd)) by done.
    replace (Kind nd) with (Kind (static nd)) by done.
    by rewrite Hst. }
  split; [|apply Hown].
  rewrite !Hown. apply ownerNodes_order.
Qed.
End OtherKinds.

(** ** A bound on the traversal, and single declarations *)

Section TraversalBound.
Context {U : Type} (ord : RangeOrder).
Context (byUID : gmap types_UID nat) (h : list (Node U)).

Lemma length_range {A} (m : gmap string A) : length (range ord m) = size m.
Proof. by rewrite range_perm, length_map_to_list. Qed.

(** Each iteration lowers the measure: the queue length plus, for every
    identifier not yet marked, one more than the largest adjacency. *)
Lemma traverse_within root D fuel t :
  traversalInv byUID h root t →
  (∀ p node, h !! p = Some node → size (Dependents node) ≤ D) →
  length (uidQueue t) + (1 + D) * size (universe root h ∖ uidSet t) < fuel →
  is_Some (traverse ord byUID fuel h t).
Proof.
  intros Hinv HD. revert t Hinv.
  induction fuel as [|fuel IH]; intros t Hinv Hfuel; [lia|]. simpl.
  destruct (visit ord byUID h t) as [t'|nm] eqn:Hvisit; [|done].
  apply IH; [by eapply traversalInv_visit|].
  destruct Hinv as [Hsound Hqueue Hseen Hclosed Hpend Huniv].
  unfold visit in Hvisit.
  destruct (uidQueue t) as [|uid rest] eqn:Hq; [done|].
  assert (uid ∈ universe root h) as Hin.
  { apply Huniv, Hqueue. set_solver. }
  assert (uid ∉ uidSet t →
          size (universe root h ∖ ({[uid]} ∪ uidSet t))
          < size (universe root h ∖ uidSet t)) as Hsize.
  { intros Hnew. apply subset_size. set_solver. }
  simpl in Hfuel. case_decide as Hvisited.
  - injection Hvisit as <-. simpl. lia.
  - specialize (Hsize Hvisited).
    destruct (nodeAt h (nodeMap t) uid) as [node|] eqn:Hnode;
      injection Hvisit as <-; simpl.
    + apply nodeAt_Some in Hnode as (p & _ & Hp).
      specialize (HD _ _ Hp).
      rewrite length_app, length_fmap, length_range. nia.
    + nia.
Qed.
End TraversalBound.

Section IterationBound.
Context `{LabelsSelector Sel} `{Unstructured U}.
Context (ord : RangeOrder) (E : Extractors Sel U).

Lemma size_list_to_set_le (l : list string) :
  size (list_to_set (C := gset string) l) ≤ length l.
Proof.
  induction l as [|x l IH]; simpl; [done|].
  rewrite size_union_alt, size_singleton.
  assert (size (list_to_set (C := gset string) l ∖ {[x]})
          ≤ size (list_to_set (C := gset string) l)); [|lia].
  apply subseteq_size. set_solver.
Qed.

(** X20: the traversal loop of [ResolveDependents] exits within
    [2 + (1 + n) * (1 + n)] iterations, [n] the number of input
    objects. *)
Theorem ResolveDependents_iteration_bound (objects : list U) root fuel :
  2 + (1 + length objects) * (1 + length objects) ≤ fuel →
  ∃ nm, ResolveDependents ord E fuel objects root
        = Some (nm, resolvedNodes ord E objects)
    ∧ Resolves ord E objects root nm.
Proof.
  intros Hfuel.
  assert (is_Some (traverse ord (globalMapByUID (buildIndex objects)) fuel
                     (resolvedNodes ord E objects)
                     (initialTraversal (globalMapByUID (buildIndex objects))
                                       root))) as [nm Hnm].
  { apply (traverse_within _ _ _ root (length objects));
      [apply traversalInv_initial| |].
    - intros p node Hp. rewrite <-(size_dom (D := gset string)).
      pose proof (size_list_to_set_le (GetUID <$> objects)) as Hle.
      rewrite length_fmap in Hle. etrans; [|apply Hle].
      apply subseteq_size. intros d Hd. apply elem_of_list_to_set.
      destruct (Dependents_resolve ord E objects p node d Hp Hd)
        as [(o & Ho & ->) _].
      by apply list_elem_of_fmap_2.
    - assert (size (universe root (resolvedNodes ord E objects)
                      ∖ uidSet (initialTraversal
                                  (globalMapByUID (buildIndex objects)) root))
              ≤ 1 + length objects) as Hu.
      { etrans; [apply (subseteq_size _
                          ({[root]} ∪ list_to_set (GetUID <$> objects)))|].
        - intros u [Hu _]%elem_of_difference. unfold universe in Hu.
          apply elem_of_union in Hu as [Hu|Hu]; [set_solver|].
          apply elem_of_union_list in Hu as (X & HX & Hu).
          apply list_elem_of_fmap in HX as (node & -> & Hnode).
          apply list_elem_of_lookup in Hnode as [p Hp].
          destruct (Dependents_resolve ord E objects p node u Hp Hu)
            as [(o & Ho & ->) _].
          apply elem_of_union_r, elem_of_list_to_set.
          by apply list_elem_of_fmap_2.
        - rewrite size_union_alt, size_singleton.
          pose proof (size_list_to_set_le (GetUID <$> objects)) as Hle.
          rewrite length_fmap in Hle.
          assert (size (list_to_set (C := gset string) (GetUID <$> objects)
                        ∖ {[root]})
                  ≤ size (list_to_set (C := gset string)
                            (GetUID <$> objects))); [|lia].
          apply subseteq_size. set_solver. }
      assert (length (uidQueue (initialTraversal
                        (globalMapByUID (buildIndex objects)) root)) ≤ 1)
        as Hq.
      { unfold initialTraversal. destruct (_ !! root); simpl; lia. }
      nia. }
  assert (ResolveDependents ord E fuel objects root
          = Some (nm, resolvedNodes ord E objects)) as Hres.
  { by rewrite ResolveDependents_eq, Hnm. }
  exists nm. split; [done|]. by eapply Resolves_intro.
Qed.
End IterationBound.

Section Declarations.
Context `{LabelsSelector Sel} `{Unstructured U}.
Context (ord : RangeOrder).
Context (byUID : gmap types_UID nat) (byKey : gmap ObjectReferenceKey nat).
Implicit Types (h : list (Node U)).

Lemma range_empty {A} : range ord (∅ : gmap string A) = [].
Proof. apply Permutation_nil_r. by rewrite range_perm, map_to_list_empty. Qed.

Lemma range_singleton {A} (k : string) (v : A) :
  range ord ({[k := v]} : gmap string A) = [(k, v)].
Proof.
  apply Permutation_singleton_r.
  by rewrite range_perm, map_to_list_singleton.
Qed.

Lemma rangeSet_singleton (r : Relationship) : rangeSet ord {[r]} = [r].
Proof.
  apply Permutation_singleton_r.
  by rewrite rangeSet_perm, elements_singleton.
Qed.

Lemma addToSet_empty (k : string) (r : Relationship) :
  addToSet k r ∅ = {[k := {[r]}]}.
Proof.
  unfold addToSet. rewrite lookup_empty, alter_insert, decide_True by done.
  by rewrite insert_empty, union_empty_r_L.
Qed.

(** X21: a relationship map with one declaration gives one edge, and
    declaring it from either side is the same.  When [a] is bound to the
    node at [p] and [b] to the node at [q], "[b] is a dependent" declared
    by the node at [p] and "[a] is a dependency" declared by the node at
    [q] both amount to [AddDependent] of [q]'s identifier on the node at
    [p]; by identifier and by reference key alike. *)
Theorem updateRelationships_single h p q np nq a b r :
  h !! p = Some np → h !! q = Some nq →
  (byUID !! a = Some p → byUID !! b = Some q →
   updateRelationships ord byUID byKey p
     (AddDependentByUID b r newRelationshipMap) h
   = AddDependent p (UID nq) r h
   ∧ updateRelationships ord byUID byKey q
       (AddDependencyByUID a r newRelationshipMap) h
     = AddDependent p (UID nq) r h)
  ∧ (byKey !! a = Some p → byKey !! b = Some q →
     updateRelationships ord byUID byKey p
       (AddDependentByKey b r newRelationshipMap) h
     = AddDependent p (UID nq) r h
     ∧ updateRelationships ord byUID byKey q
         (AddDependencyByKey a r newRelationshipMap) h
       = AddDependent p (UID nq) r h).
Proof.
  intros Hp Hq.
  split; intros Ha Hb; split; unfold updateRelationships;
    rewrite ?Hp, ?Hq; simpl;
    rewrite addToSet_empty, !range_empty, range_singleton; simpl;
    rewrite ?Ha, ?Hb; unfold addDependents, addDependentsOf;
    rewrite rangeSet_singleton; simpl; by rewrite ?Hq.
Qed.
End Declarations.

(** ** The logged count *)

Section LoggedCount.
Context `{LabelsSelector Sel} `{Unstructured U}.
Context (ord : RangeOrder) (E : Extractors Sel U).

(** X22: the count that [ResolveDependents] logs, [len(nodeMap)-1],
    is -1 exactly when the root is bound to no node, which is also
    exactly when the returned map is empty; when the root is bound, the
    count is the number of keys of the map other than the root. *)
Theorem resolvedDependentsCount_unknown_root (objects : list U) root nm :
  Resolves ord E objects root nm →
  (nm = ∅ ↔ globalMapByUID (buildIndex objects) !! root = None)
  ∧ (resolvedDependentsCount nm = (-1)%Z
     ↔ globalMapByUID (buildIndex objects) !! root = None)
  ∧ (is_Some (globalMapByUID (buildIndex objects) !! root) →
     resolvedDependentsCount nm = Z.of_nat (size (dom nm ∖ {[root]}))).
Proof.
  intros Hnm.
  destruct (Resolves_spec ord E objects root)
    as (nm0 & Hres0 & _ & _ & Hin & Hempty).
  assert (nm0 = nm) as -> by by eapply Resolves_functional.
  assert (nm = ∅ ↔ globalMapByUID (buildIndex objects) !! root = None)
    as Hiff.
  { split; [|done]. intros ->.
    destruct (globalMapByUID (buildIndex objects) !! root) as [p|] eqn:Hp;
      [|done].
    by specialize (Hin p eq_refl). }
  unfold resolvedDependentsCount. split_and!; [done| |].
  - rewrite <-Hiff. rewrite <-(map_size_empty_iff nm). lia.
  - intros [p Hp]. specialize (Hin p Hp).
    rewrite <-(size_dom (D := gset string)).
    assert (root ∈ dom nm) as Hroot by (apply elem_of_dom; by eexists).
    rewrite size_difference by set_solver. rewrite size_singleton.
    assert (size (dom nm) ≠ 0); [|lia].
    apply size_non_empty_iff. set_solver.
Qed.
End LoggedCount.

(** ** Further properties on concrete inputs *)

Example RelationshipSet_List_example :
  RelationshipSet_List reverseOrder mergeSorter
    {[ RelationshipOwnerRef; RelationshipControllerRef; "Service" ]}
  = [ "ControllerRef"; "OwnerRef"; "Service" ].
Proof. evaluate. Qed.

Lemma NodeList_Less_total_witness :
  NodeList_Less [nodeOf webService; nodeOf webPod1] 0 1 = Some false
  ∧ NodeList_Less [nodeOf webService; nodeOf webPod1] 1 0 = Some false
  ↔ Namespace (nodeOf webService) = Namespace (nodeOf webPod1)
    ∧ Kind (nodeOf webService) = Kind (nodeOf webPod1)
    ∧ Group (nodeOf webService) = Group (nodeOf webPod1)
    ∧ Name (nodeOf webService) = Name (nodeOf webPod1).
Proof.
  apply (NodeList_Less_total [nodeOf webService; nodeOf webPod1] 0 1);
    reflexivity.
Defined.

Lemma built_wellFormed_witness : wellFormed serviceRelationships.
Proof.
  apply built_wellFormed.
  apply built_DependentByLabelSelector, built_new.
Defined.

Lemma globalMapByUID_unique_identifiers_witness :
  (∀ i o, scenarioDRP !! i = Some o →
          globalMapByUID (buildIndex scenarioDRP) !! GetUID o = Some i)
  ∧ dom (globalMapByUID (buildIndex scenarioDRP))
    = list_to_set (GetUID <$> scenarioDRP)
  ∧ size (globalMapByUID (buildIndex scenarioDRP)) = length scenarioDRP.
Proof.
  apply (globalMapByUID_unique_identifiers scenarioDRP); compute_done.
Defined.

Lemma globalMapByKey_distinct_coordinates_witness :
  globalMapByKey (buildIndex scenarioService) !! referenceKey webPod1
  = Some 1.
Proof.
  refine (globalMapByKey_distinct_coordinates scenarioService _ _
            1 webPod1 _); [compute_done|compute_done|reflexivity].
Defined.

Lemma resolvedNodes_extraction_fails_witness :
  resolvedNodes canonicalOrder noExtractors scenarioDRP
  = ownerNodes canonicalOrder scenarioDRP
  ∧ ∀ root, ∃ nm, Resolves canonicalOrder noExtractors scenarioDRP root nm.
Proof.
  apply (resolvedNodes_extraction_fails (Sel := SetSelector) canonicalOrder
           noExtractors scenarioDRP).
  intros o nd rmap _ _. unfold dispatch. repeat case_decide; done.
Defined.

Lemma resolvedNodes_other_kinds_witness :
  resolvedNodes canonicalOrder exampleExtractors cycleAB
  = resolvedNodes reverseOrder noExtractors cycleAB
  ∧ resolvedNodes canonicalOrder exampleExtractors cycleAB
    = ownerNodes canonicalOrder cycleAB.
Proof.
  apply (resolvedNodes_other_kinds cycleAB). compute_done.
Defined.

Lemma resolvedNodes_labels_witness :
  "Service"
    ∈ labels (resolvedNodes canonicalOrder exampleExtractors scenarioService)
             0 "P1"
  ↔ ownerEdge (globalMapByUID (buildIndex scenarioService))
              (nodeOf <$> scenarioService) 0 "P1" "Service"
    ∨ extractorEdge exampleExtractors
        (globalMapByUID (buildIndex scenarioService))
        (globalMapByKey (buildIndex scenarioService))
        (nodeOf <$> scenarioService) 0 "P1" "Service".
Proof.
  apply (resolvedNodes_labels canonicalOrder exampleExtractors
           scenarioService).
  intros nd. reflexivity.
Defined.

Lemma ResolveDependents_subgraph_witness :
  ({[ "R" := Some 1; "P" := Some 2 ]} : NodeMap)
  ⊆ {[ "D" := Some 0; "R" := Some 1; "P" := Some 2 ]}.
Proof.
  apply (ResolveDependents_subgraph (Sel := SetSelector) canonicalOrder
           noExtractors scenarioDRP "D" "R").
  - apply (Resolves_intro _ _ _ 10 _ _
             (resolvedNodes canonicalOrder noExtractors scenarioDRP)).
    evaluate.
  - rewrite !dom_insert_L. set_solver.
  - apply (Resolves_intro _ _ _ 10 _ _
             (resolvedNodes canonicalOrder noExtractors scenarioDRP)).
    evaluate.
Defined.

Lemma ResolveDependents_iteration_bound_witness :
  ∃ nm, ResolveDependents canonicalOrder noExtractors 18 scenarioDRP "D"
        = Some (nm, resolvedNodes canonicalOrder noExtractors scenarioDRP)
    ∧ Resolves canonicalOrder noExtractors scenarioDRP "D" nm.
Proof.
  apply (ResolveDependents_iteration_bound (Sel := SetSelector)
           canonicalOrder noExtractors scenarioDRP "D" 18).
  simpl. lia.
Defined.

Lemma updateRelationships_single_witness :
  updateRelationships canonicalOrder
    (globalMapByUID (buildIndex scenarioDRP))
    (globalMapByKey (buildIndex scenarioDRP)) 0
    (AddDependentByUID "R" "Owns" (newRelationshipMap (Sel := SetSelector)))
    (nodeOf <$> scenarioDRP)
  = AddDependent 0 "R" "Owns" (nodeOf <$> scenarioDRP).
Proof.
  destruct (updateRelationships_single (Sel := SetSelector) canonicalOrder
              (globalMapByUID (buildIndex scenarioDRP))
              (globalMapByKey (buildIndex scenarioDRP))
              (nodeOf <$> scenarioDRP) 0 1
              (nodeOf (object "D" "apps" "Deployment" "d" []))
              (nodeOf (object "R" "apps" "ReplicaSet" "r" [controlledBy "D"]))
              "D" "R" "Owns") as [Huid _]; [reflexivity|reflexivity|].
  destruct Huid as [Hdependent _]; [evaluate|evaluate|].
  exact Hdependent.
Defined.

Lemma resolvedDependentsCount_unknown_root_witness :
  (({[ "D" := Some 0; "R" := Some 1; "P" := Some 2 ]} : NodeMap) = ∅
   ↔ globalMapByUID (buildIndex scenarioDRP) !! "D" = None)
  ∧ (resolvedDependentsCount {[ "D" := Some 0; "R" := Some 1; "P" := Some 2 ]}
     = (-1)%Z
     ↔ globalMapByUID (buildIndex scenarioDRP) !! "D" = None)
  ∧ (is_Some (globalMapByUID (buildIndex scenarioDRP) !! "D") →
     resolvedDependentsCount {[ "D" := Some 0; "R" := Some 1; "P" := Some 2 ]}
     = Z.of_nat (size (dom ({[ "D" := Some 0; "R" := Some 1; "P" := Some 2 ]}
                              : NodeMap) ∖ {[ "D" ]}))).
Proof.
  apply (resolvedDependentsCount_unknown_root (Sel := SetSelector)
           canonicalOrder noExtractors scenarioDRP "D").
  apply (Resolves_intro _ _ _ 10 _ _
           (resolvedNodes canonicalOrder noExtractors scenarioDRP)).
  evaluate.
Defined.
